(** * Drinking philosophers: the bottle pool, the sharing graph and the
    thirsty transition of [Assignments/drinking_philosopher.cpp]

    The three classes of the program are embedded as pure functions:
    - [Graph]: a vector of ordered maps, [adjacency_list[philosopher][neighbor]
      = bottle_id];
    - [Bottles]: a vector of owners, [-1] standing for a free bottle; its two
      operations run under the pool's mutex, so a run of the program is a
      sequence of whole calls;
    - [Philosopher]: the state, the id and the bottles needed in this round.

    A C++ call either returns, throws, or leaves the language's defined
    behaviour (an unchecked [operator[]] outside a vector).  The [int]s of
    the program are ids and small counters, never the result of arithmetic
    that could wrap; they are integers of [Z]. *)

From stdpp Require Import base list gmap sets strings sorting.
From Stdlib Require Import ZArith Lia.
From Equations Require Import Equations.

Open Scope Z_scope.

(** ** Outcome of a call *)

Inductive exn : Type := out_of_range.

Inductive outcome (A : Type) : Type :=
| Ret (x : A)      (* the call returns x *)
| Throw (e : exn)  (* an exception reaches the caller *)
| Undef.           (* undefined behaviour *)

Arguments Ret {A} x.
Arguments Throw {A} e.
Arguments Undef {A}.

(** Sequencing of calls; the notation [x ← c; k] is stdpp's. *)
#[export] Instance outcome_bind : MBind outcome := λ A B k c,
  match c with
  | Ret x => k x
  | Throw e => Throw e
  | Undef => Undef
  end.

(** ** std::vector, indexed by an [int] through [operator[]] *)

(** [v[i]] read: no bounds check in the source. *)
Definition vec_get {A : Type} (v : list A) (i : Z) : outcome A :=
  if decide (0 ≤ i) then
    match v !! Z.to_nat i with
    | Some x => Ret x
    | None => Undef
    end
  else Undef.

(** [v[i] = x]. *)
Definition vec_set {A : Type} (v : list A) (i : Z) (x : A) : outcome (list A) :=
  if decide (0 ≤ i < Z.of_nat (length v)) then Ret (<[Z.to_nat i := x]> v)
  else Undef.

(** ** std::map<int, int>: entries kept in ascending key order *)

(** [m[k] = v]: the entry of [k] is created or overwritten. *)
Fixpoint map_assign (k v : Z) (m : list (Z * Z)) : list (Z * Z) :=
  match m with
  | [] => [(k, v)]
  | (k', v') :: rest =>
      if k <? k' then (k, v) :: m
      else if k =? k' then (k, v) :: rest
      else (k', v') :: map_assign k v rest
  end.

(** ** class Graph *)

Module Graph.

(** [adjacency_list]: [philosopher][neighbor] = bottle_id. *)
Abbreviation t := (list (list (Z * Z))) (only parsing).

Definition Graph (number_fo_vertices : nat) : t :=
  replicate number_fo_vertices [].

Definition addEdge (vectex_1 vertex_2 bottle_id : Z) (adjacency_list : t)
  : outcome t :=
  row_1 ← vec_get adjacency_list vectex_1;
  adjacency_list ← vec_set adjacency_list vectex_1
                     (map_assign vertex_2 bottle_id row_1);
  row_2 ← vec_get adjacency_list vertex_2;
  vec_set adjacency_list vertex_2 (map_assign vectex_1 bottle_id row_2).

Definition getAdjacentBottles (philosopher_id : Z) (adjacency_list : t)
  : outcome (list Z) :=
  row ← vec_get adjacency_list philosopher_id;
  Ret (row.*2).

End Graph.

(** ** class Bottles *)

Module Bottles.

(** -1 indicates the bottle is free. *)
Definition FREE : Z := -1.

Abbreviation t := (list Z) (only parsing).

Definition Bottles (number_of_bottles : nat) : t :=
  replicate number_of_bottles FREE.

(** First loop of [acquireBottles]: check if all needed bottles are
    available; leaves at the first bottle held by someone else. *)
Fixpoint check_available (philosopher_id : Z) (required_bottles : list Z)
  (bottles : t) : outcome bool :=
  match required_bottles with
  | [] => Ret true
  | bottle :: rest =>
      owner ← vec_get bottles bottle;
      if negb (owner =? -1) && negb (owner =? philosopher_id)
      then Ret false
      else check_available philosopher_id rest bottles
  end.

(** Second loop of [acquireBottles]: acquire all needed bottles. *)
Fixpoint mark_all (philosopher_id : Z) (required_bottles : list Z)
  (bottles : t) : outcome t :=
  match required_bottles with
  | [] => Ret bottles
  | bottle :: rest =>
      bottles ← vec_set bottles bottle philosopher_id;
      mark_all philosopher_id rest bottles
  end.

Definition acquireBottles (philosopher_id : Z) (required_bottles : list Z)
  (bottles : t) : outcome (bool * t) :=
  available ← check_available philosopher_id required_bottles bottles;
  if available : bool then
    bottles ← mark_all philosopher_id required_bottles bottles;
    Ret (true, bottles)
  else Ret (false, bottles).

(** Body of the loop of [releaseBottles] at index [i]. *)
Definition release_step (philosopher_id : Z) (acc : outcome t) (i : nat)
  : outcome t :=
  bottles ← acc;
  owner ← vec_get bottles (Z.of_nat i);
  if owner =? philosopher_id then vec_set bottles (Z.of_nat i) (-1)
  else Ret bottles.

(** [for (int i = 0; i < bottles.size(); ++i)]. *)
Definition releaseBottles (philosopher_id : Z) (bottles : t) : outcome t :=
  foldl (release_step philosopher_id) (Ret bottles)
        (seq 0%nat (length bottles)).

(** What [logBottleState] prints for one bottle: [Free] or [P<id>]. *)
Inductive slot : Type := Free | P (philosopher_id : Z).

#[export] Instance slot_eq_dec : EqDecision slot.
Proof. solve_decision. Defined.

Definition show_slot (owner : Z) : slot :=
  if owner =? -1 then Free else P owner.

Definition logBottleState (bottles : t) : list slot :=
  show_slot <$> bottles.

(** The owner of bottle [r] as the snapshot reports it; [None] when the
    pool has no bottle [r]. *)
Definition owner (bottles : t) (r : Z) : option slot :=
  if decide (0 ≤ r) then logBottleState bottles !! Z.to_nat r else None.

Definition is_free (bottles : t) (r : Z) : Prop :=
  owner bottles r = Some Free.

Definition owned_by (bottles : t) (r : Z) (a : Z) : Prop :=
  owner bottles r = Some (P a).

Definition in_pool (bottles : t) (r : Z) : Prop :=
  0 ≤ r < Z.of_nat (length bottles).

End Bottles.

(** ** class Philosopher *)

Inductive State : Type := TRANQUIL | THIRSTY | DRINKING.

Module Philosopher.

Record t : Type := mk {
  id : Z;
  state : State;
  required_bottles : list Z
}.

Definition Philosopher (id : Z) : t :=
  {| id := id; state := TRANQUIL; required_bottles := [] |}.

(** The selection loop of [becomeThirsty]:
    [for (int i = 0; i < limit && i < adjacent_bottles.size(); ++i)
       required_bottles.push_back(adjacent_bottles[indices[i]]);] *)
Equations select_loop (adjacent_bottles indices : list Z) (limit i : Z)
  (required_bottles : list Z) : outcome (list Z)
  by wf (Z.to_nat (limit - i)) lt :=
  select_loop adjacent_bottles indices limit i required_bottles
    with decide (i < limit ∧ i < Z.of_nat (length adjacent_bottles)) := {
    | left _ =>
        match vec_get indices i with
        | Ret idx =>
            match vec_get adjacent_bottles idx with
            | Ret bottle =>
                select_loop adjacent_bottles indices limit (i + 1)
                            (required_bottles ++ [bottle])
            | Throw e => Throw e
            | Undef => Undef
            end
        | Throw e => Throw e
        | Undef => Undef
        end
    | right _ => Ret required_bottles }.
Next Obligation. lia. Qed.

(** [becomeThirsty]. The two random draws are arguments: [rnd] is the value
    [rand()] returns, [shuffle] is what [std::ranges::shuffle] does to a
    vector with the generator seeded in this call. *)
Definition becomeThirsty (graph : Graph.t) (rnd : Z)
  (shuffle : list Z → list Z) (p : t) : outcome t :=
  let p := {| id := id p; state := THIRSTY;
              required_bottles := required_bottles p |} in
  adjacent_bottles ← Graph.getAdjacentBottles (id p) graph;
  let limit := Z.rem rnd 2 + 1 in
  (* required_bottles.clear() *)
  let p := {| id := id p; state := state p; required_bottles := [] |} in
  (* iota, then shuffle *)
  let indices := shuffle (seqZ 0 (Z.of_nat (length adjacent_bottles))) in
  required ← select_loop adjacent_bottles indices limit 0 (required_bottles p);
  Ret {| id := id p; state := state p; required_bottles := required |}.

End Philosopher.

(** ** The topology that [main] builds: five philosophers, six bottles *)

Definition main_graph : outcome Graph.t :=
  graph ← Graph.addEdge 0 1 0 (Graph.Graph 5);
  graph ← Graph.addEdge 1 2 1 graph;
  graph ← Graph.addEdge 2 3 2 graph;
  graph ← Graph.addEdge 3 4 3 graph;
  graph ← Graph.addEdge 4 0 4 graph;
  Graph.addEdge 0 2 5 graph.

(** ** Runs of the pool

    Every pool operation holds [Bottles::mtx] from its first to its last
    statement, so the philosophers' threads see the pool through a sequence
    of whole calls.  A philosopher holds the bottles of a round from the
    [requestBottles] that succeeds to its next [releaseBottles]
    ([Philosopher::run]); [holding] records these pairs next to the pool. *)

Module Run.

Inductive op : Type :=
| requestBottles (id : Z) (required_bottles : list Z)
| releaseBottles (id : Z).

Record world : Type := mk {
  pool : Bottles.t;
  holding : gset (Z * Z)   (* (philosopher, bottle) *)
}.

Definition start (number_of_bottles : nat) : world :=
  {| pool := Bottles.Bottles number_of_bottles; holding := ∅ |}.

Definition step (w : world) (o : op) : outcome world :=
  match o with
  | requestBottles id required_bottles =>
      r ← Bottles.acquireBottles id required_bottles (pool w);
      if r.1 : bool then
        Ret {| pool := r.2;
               holding := holding w ∪
                          list_to_set ((λ b, (id, b)) <$> required_bottles) |}
      else Ret {| pool := r.2; holding := holding w |}
  | releaseBottles id =>
      bottles ← Bottles.releaseBottles id (pool w);
      Ret {| pool := bottles;
             holding := filter (λ h, h.1 ≠ id) (holding w) |}
  end.

Fixpoint exec (w : world) (ops : list op) : outcome world :=
  match ops with
  | [] => Ret w
  | o :: rest => w ← step w o; exec w rest
  end.

(** An operation a philosopher of the program can issue on pool [n]: its
    id is not the free marker and it asks for bottles of the pool. *)
Definition wf_op (n : nat) (o : op) : Prop :=
  match o with
  | requestBottles id required_bottles =>
      id ≠ Bottles.FREE ∧
      Forall (λ b, 0 ≤ b < Z.of_nat n) required_bottles
  | releaseBottles id => id ≠ Bottles.FREE
  end.

(** The snapshot of the pool names as owner of a bottle exactly the
    philosopher that holds it. *)
Definition consistent (w : world) : Prop :=
  ∀ a r, (a, r) ∈ holding w ↔ Bottles.owned_by (pool w) r a.

End Run.

(** ** The body of a philosopher's thread

    The methods [Philosopher::run] calls in turn, on the philosopher and the
    shared pool.  The sleeps and the log lines leave both untouched. *)

Module Thread.

Import Philosopher.

Definition think (p : Philosopher.t) : Philosopher.t :=
  {| id := id p; state := TRANQUIL; required_bottles := required_bottles p |}.

Definition requestBottles (p : Philosopher.t) (bottles : Bottles.t)
  : outcome (bool * Philosopher.t * Bottles.t) :=
  r ← Bottles.acquireBottles (id p) (required_bottles p) bottles;
  if r.1 : bool then
    Ret (true,
         {| id := id p; state := DRINKING;
            required_bottles := required_bottles p |},
         r.2)
  else Ret (false, p, r.2).

Definition drink (p : Philosopher.t) : Philosopher.t := p.

Definition releaseBottles (p : Philosopher.t) (bottles : Bottles.t)
  : outcome (Philosopher.t * Bottles.t) :=
  bottles ← Bottles.releaseBottles (id p) bottles;
  Ret ({| id := id p; state := TRANQUIL;
          required_bottles := required_bottles p |},
       bottles).

End Thread.

(** ** Topologies built edge by edge, as [main] builds its own *)

Module Topology.

Fixpoint addEdges (edges : list (Z * Z * Z)) (graph : Graph.t)
  : outcome Graph.t :=
  match edges with
  | [] => Ret graph
  | (vertex_1, vertex_2, bottle_id) :: rest =>
      graph ← Graph.addEdge vertex_1 vertex_2 bottle_id graph;
      addEdges rest graph
  end.

(** [adjacency_list[a]] has the entry [b ↦ r]. *)
Definition adjacent (graph : Graph.t) (a b r : Z) : Prop :=
  0 ≤ a ∧ ∃ row, graph !! Z.to_nat a = Some row ∧ (b, r) ∈ row.

(** Every row lists its neighbours in ascending order, each once. *)
Definition ascending (graph : Graph.t) : Prop :=
  Forall (λ row : list (Z * Z), StronglySorted Z.lt (row.*1)) graph.

End Topology.

(** ** Names of the states in the log *)

(** [stateToString]; its [default] branch is for values outside the enum. *)
Definition stateToString (state : State) : string :=
  match state with
  | TRANQUIL => "TRANQUIL"
  | THIRSTY => "THIRSTY"
  | DRINKING => "DRINKING"
  end%string.

Fixpoint spaces (n : nat) : string :=
  match n with
  | O => ""
  | S n => " " +:+ spaces n
  end%string.

(** [std::setw(n) << s]: [s] at the right of a field of [n] characters
    filled with spaces; a longer [s] is printed whole. *)
Definition setw (n : nat) (s : string) : string :=
  (spaces (n - String.length s) +:+ s)%string.

(** * Properties *)

(** ** Vectors *)

Section vec.
Context {A : Type}.
Implicit Types (v : list A) (i : Z) (x : A).

Lemma vec_get_Ret v i x :
  vec_get v i = Ret x ↔ 0 ≤ i ∧ v !! Z.to_nat i = Some x.
Proof.
  unfold vec_get. case_decide; [|split; [done|lia]].
  destruct (v !! Z.to_nat i); naive_solver.
Qed.

Lemma vec_get_in_range v i :
  0 ≤ i < Z.of_nat (length v) → ∃ x, vec_get v i = Ret x.
Proof.
  intros Hi. destruct (lookup_lt_is_Some_2 v (Z.to_nat i)) as [x Hx]; [lia|].
  exists x. apply vec_get_Ret. split; [lia|done].
Qed.

Lemma vec_get_out_of_range v i :
  ¬ (0 ≤ i < Z.of_nat (length v)) → vec_get v i = Undef.
Proof.
  intros Hi. unfold vec_get. case_decide; [|done].
  rewrite lookup_ge_None_2; [done|lia].
Qed.

Lemma vec_get_no_throw v i e : vec_get v i ≠ Throw e.
Proof. unfold vec_get. case_decide; [|done]. by destruct (v !! _). Qed.

Lemma vec_set_in_range v i x :
  0 ≤ i < Z.of_nat (length v) → vec_set v i x = Ret (<[Z.to_nat i := x]> v).
Proof. intros Hi. unfold vec_set. by rewrite decide_True. Qed.

Lemma vec_set_out_of_range v i x :
  ¬ (0 ≤ i < Z.of_nat (length v)) → vec_set v i x = Undef.
Proof. intros Hi. unfold vec_set. by rewrite decide_False. Qed.

Lemma vec_set_Ret v i x v' :
  vec_set v i x = Ret v' ↔
  0 ≤ i < Z.of_nat (length v) ∧ v' = <[Z.to_nat i := x]> v.
Proof. unfold vec_set. case_decide; naive_solver. Qed.

End vec.

(** ** The pool: what the snapshot says about a slot *)

Section pool.
Import Bottles.
Implicit Types (bottles : Bottles.t) (a r owner : Z) (S : list Z).

Lemma is_free_iff bottles r :
  is_free bottles r ↔ 0 ≤ r ∧ bottles !! Z.to_nat r = Some (-1).
Proof.
  unfold is_free, Bottles.owner, logBottleState.
  case_decide; [|split; [done|lia]].
  rewrite list_lookup_fmap. unfold show_slot.
  destruct (bottles !! Z.to_nat r) as [v|]; simpl.
  - destruct (Z.eqb_spec v (-1)) as [->|Hv]; [by split|].
    split; [done|]. intros [_ [=]]. done.
  - split; [done|]. by intros [_ ?].
Qed.

Lemma owned_by_iff bottles r a :
  owned_by bottles r a ↔
  0 ≤ r ∧ bottles !! Z.to_nat r = Some a ∧ a ≠ FREE.
Proof.
  unfold owned_by, Bottles.owner, logBottleState, FREE.
  case_decide; [|split; [done|lia]].
  rewrite list_lookup_fmap. unfold show_slot.
  destruct (bottles !! Z.to_nat r) as [v|]; simpl.
  - destruct (Z.eqb_spec v (-1)) as [->|Hv].
    + split; [done|]. intros (_ & [= <-] & ?). done.
    + split; [intros [= ->]; by split_and!|]. by intros (_ & [= ->] & _).
  - split; [done|]. by intros (_ & ? & _).
Qed.

Lemma owner_in_pool bottles r s :
  Bottles.owner bottles r = Some s → in_pool bottles r.
Proof.
  unfold Bottles.owner, logBottleState, in_pool. case_decide; [|done].
  intros Hs%lookup_lt_Some. rewrite length_fmap in Hs. lia.
Qed.

(** The test of the first loop, read through the snapshot. *)
Lemma available_iff bottles r a v :
  0 ≤ r → bottles !! Z.to_nat r = Some v →
  negb (v =? -1) && negb (v =? a) = false ↔
  is_free bottles r ∨ owned_by bottles r a.
Proof.
  intros Hr Hv. rewrite is_free_iff, owned_by_iff, Hv. unfold FREE.
  destruct (Z.eqb_spec v (-1)), (Z.eqb_spec v a); simpl; naive_solver.
Qed.

Lemma check_available_true a S bottles :
  check_available a S bottles = Ret true ↔
  Forall (λ r, is_free bottles r ∨ owned_by bottles r a) S.
Proof.
  induction S as [|r S IH]; simpl.
  { split; [constructor|done]. }
  rewrite Forall_cons. destruct (vec_get bottles r) as [v| |] eqn:Hget; simpl.
  - apply vec_get_Ret in Hget as [Hr Hv].
    pose proof (available_iff bottles r a v Hr Hv) as Hav.
    destruct (negb (v =? -1) && negb (v =? a)); [|naive_solver].
    split; [done|]. intros [Hr' _]. apply Hav in Hr'. done.
  - by apply vec_get_no_throw in Hget.
  - split; [done|]. intros [[Hr|Hr] _]; exfalso.
    + apply is_free_iff in Hr as [? Hr].
      assert (vec_get bottles r = Ret (-1)) by by apply vec_get_Ret.
      congruence.
    + apply owned_by_iff in Hr as (? & Hr & _).
      assert (vec_get bottles r = Ret a) by by apply vec_get_Ret.
      congruence.
Qed.

Lemma check_available_defined a S bottles :
  Forall (in_pool bottles) S → ∃ ok, check_available a S bottles = Ret ok.
Proof.
  induction 1 as [|r S Hr _ IH]; simpl; [by eexists|].
  destruct (vec_get_in_range bottles r Hr) as [v ->]; simpl.
  destruct (negb (v =? -1) && negb (v =? a)); [by eexists|done].
Qed.

(** The second loop writes [a] into the slots of [S] and nothing else. *)
Lemma mark_all_in_pool a S bottles :
  Forall (in_pool bottles) S →
  ∃ bottles', mark_all a S bottles = Ret bottles' ∧
    length bottles' = length bottles ∧
    ∀ i : nat, bottles' !! i =
               if decide (Z.of_nat i ∈ S) then Some a else bottles !! i.
Proof.
  revert bottles. induction S as [|r S IH]; intros bottles HS; simpl.
  { exists bottles. by split_and!. }
  apply Forall_cons in HS as [Hr HS]. unfold in_pool in Hr.
  rewrite vec_set_in_range by done. simpl.
  destruct (IH (<[Z.to_nat r := a]> bottles)) as (b' & Hb' & Hlen & Hlk).
  { eapply Forall_impl; [exact HS|]. unfold in_pool.
    intros x. by rewrite length_insert. }
  exists b'. split_and!; [done|by rewrite Hlen, length_insert|].
  intros i. rewrite Hlk. repeat case_decide; try done.
  - exfalso. set_solver.
  - destruct (decide (Z.of_nat i = r)) as [<-|Hne].
    + rewrite Nat2Z.id. apply list_lookup_insert_eq. lia.
    + exfalso. set_solver.
  - apply list_lookup_insert_ne. set_solver by lia.
Qed.

Lemma available_in_pool a S bottles :
  Forall (λ r, is_free bottles r ∨ owned_by bottles r a) S →
  Forall (in_pool bottles) S.
Proof.
  intros HS. eapply Forall_impl; [exact HS|].
  intros r [Hr|Hr]; by eapply owner_in_pool.
Qed.

Lemma acquireBottles_success a S bottles :
  Forall (λ r, is_free bottles r ∨ owned_by bottles r a) S →
  ∃ bottles', acquireBottles a S bottles = Ret (true, bottles') ∧
    length bottles' = length bottles ∧
    ∀ i : nat, bottles' !! i =
               if decide (Z.of_nat i ∈ S) then Some a else bottles !! i.
Proof.
  intros HS. unfold acquireBottles.
  rewrite (proj2 (check_available_true a S bottles) HS). simpl.
  destruct (mark_all_in_pool a S bottles) as (b' & -> & Hlen & Hlk).
  { by eapply available_in_pool. }
  by exists b'.
Qed.

Lemma acquireBottles_true_inv a S bottles bottles' :
  acquireBottles a S bottles = Ret (true, bottles') →
  Forall (λ r, is_free bottles r ∨ owned_by bottles r a) S.
Proof.
  unfold acquireBottles. intros Hacq. apply check_available_true.
  destruct (check_available a S bottles) as [[|]| |]; simpl in Hacq;
    by try done.
Qed.

Lemma acquireBottles_failure a S bottles :
  Forall (in_pool bottles) S →
  ¬ Forall (λ r, is_free bottles r ∨ owned_by bottles r a) S →
  acquireBottles a S bottles = Ret (false, bottles).
Proof.
  intros HS Hbusy. unfold acquireBottles.
  destruct (check_available_defined a S bottles HS) as [[|] Hok].
  - by apply check_available_true in Hok.
  - by rewrite Hok.
Qed.

(** The loop of [releaseBottles] after its first [n] rounds. *)
Lemma release_loop_prefix a bottles (n : nat) :
  (n ≤ length bottles)%nat →
  foldl (release_step a) (Ret bottles) (seq 0%nat n) =
  Ret (((λ v, if v =? a then -1 else v) <$> take n bottles)
         ++ drop n bottles).
Proof.
  induction n as [|n IH]; intros Hn.
  { simpl. by rewrite drop_0. }
  rewrite seq_S, foldl_app, IH by lia. simpl.
  destruct (lookup_lt_is_Some_2 bottles n) as [v Hv]; [lia|].
  assert (Hlen : length ((λ v, if v =? a then -1 else v) <$> take n bottles)
                 = n) by (rewrite length_fmap, length_take_le; lia).
  rewrite (take_S_r _ _ _ Hv), fmap_app, (drop_S _ _ _ Hv). simpl.
  rewrite <- app_assoc. simpl.
  set (done_part := (λ v, if v =? a then -1 else v) <$> take n bottles) in *.
  assert (Hget : vec_get (done_part ++ v :: drop (S n) bottles) (Z.of_nat n)
                 = Ret v).
  { apply vec_get_Ret. split; [lia|]. rewrite Nat2Z.id.
    by rewrite lookup_app_r, Hlen, Nat.sub_diag by lia. }
  unfold release_step. simpl. rewrite Hget. simpl.
  destruct (v =? a); [|done].
  rewrite vec_set_in_range by (rewrite length_app, Hlen; simpl; lia).
  rewrite Nat2Z.id, insert_app_r_alt, Hlen, Nat.sub_diag by lia. done.
Qed.

Lemma releaseBottles_Ret a bottles :
  releaseBottles a bottles =
  Ret ((λ v, if v =? a then -1 else v) <$> bottles).
Proof.
  unfold releaseBottles. rewrite release_loop_prefix by done.
  by rewrite firstn_all, drop_all, app_nil_r.
Qed.

Lemma acquireBottles_cases a S bottles :
  Forall (in_pool bottles) S →
  (Forall (λ r, is_free bottles r ∨ owned_by bottles r a) S ∧
   ∃ bottles', acquireBottles a S bottles = Ret (true, bottles')) ∨
  (¬ Forall (λ r, is_free bottles r ∨ owned_by bottles r a) S ∧
   acquireBottles a S bottles = Ret (false, bottles)).
Proof.
  intros HS. destruct (check_available_defined a S bottles HS) as [[|] Hok].
  - left. apply check_available_true in Hok. split; [done|].
    destruct (acquireBottles_success a S bottles Hok) as (b' & ? & _).
    by exists b'.
  - right. assert (¬ Forall (λ r, is_free bottles r ∨ owned_by bottles r a) S)
      as Hbusy by (intros ?%check_available_true; congruence).
    split; [done|]. by apply acquireBottles_failure.
Qed.

(** Owners after the slots of [S] were written with [a]. *)
Lemma owner_marked a S bottles bottles' r :
  Forall (in_pool bottles) S →
  (∀ i : nat, bottles' !! i =
              if decide (Z.of_nat i ∈ S) then Some a else bottles !! i) →
  Bottles.owner bottles' r =
  if decide (r ∈ S) then Some (show_slot a) else Bottles.owner bottles r.
Proof.
  intros HS Hlk. unfold Bottles.owner, logBottleState.
  destruct (decide (0 ≤ r)) as [Hr|Hr].
  - rewrite !list_lookup_fmap, Hlk, Z2Nat.id by done. by case_decide.
  - rewrite decide_False; [done|]. intros Hin.
    rewrite Forall_forall in HS. apply HS in Hin. unfold in_pool in Hin. lia.
Qed.

Lemma owner_released a bottles r :
  Bottles.owner ((λ v, if v =? a then -1 else v) <$> bottles) r =
  (λ s, if decide (s = P a) then Free else s) <$> Bottles.owner bottles r.
Proof.
  unfold Bottles.owner, logBottleState. case_decide; [|done].
  rewrite !list_lookup_fmap. destruct (bottles !! Z.to_nat r) as [v|]; [|done].
  simpl. f_equal. unfold show_slot.
  destruct (Z.eqb_spec v a) as [->|Hva]; simpl.
  - destruct (Z.eqb_spec a (-1)); by case_decide.
  - destruct (Z.eqb_spec v (-1)); [by case_decide|].
    rewrite decide_False; [done|]. by intros [=].
Qed.

End pool.


(** ** The pool: acquisition and release *)

Section pool_operations.
Import Bottles.
Implicit Types (bottles : Bottles.t) (a r : Z) (S : list Z).

(** C1. [acquireBottles] is all or nothing: for a pool, a philosopher [a]
    and bottles [S] of the pool, the call returns [true] exactly when every
    bottle of [S] is free or already owned by [a]; when it returns [true]
    every bottle of [S] is owned by [a]; when it returns [false] the pool
    is the one before the call. *)
Theorem acquireBottles_all_or_nothing a S bottles :
  a ≠ FREE →
  Forall (in_pool bottles) S →
  ∃ ok bottles',
    acquireBottles a S bottles = Ret (ok, bottles') ∧
    (ok = true ↔ Forall (λ r, is_free bottles r ∨ owned_by bottles r a) S) ∧
    (ok = true → Forall (λ r, owned_by bottles' r a) S) ∧
    (ok = false → bottles' = bottles).
Proof.
  intros Ha HS.
  destruct (acquireBottles_cases a S bottles HS) as [[Hav _]|[Hbusy Hacq]].
  - destruct (acquireBottles_success a S bottles Hav) as (b' & Hacq & _ & Hlk).
    exists true, b'. split_and!; [done|done| |done].
    intros _. apply Forall_forall. intros r Hr.
    unfold owned_by. rewrite (owner_marked a S bottles b' r HS Hlk).
    rewrite decide_True by done. unfold show_slot, FREE in *.
    by destruct (Z.eqb_spec a (-1)).
  - exists false, bottles. split_and!; [done| |done|done].
    split; [done|]. intros Hav. by destruct Hbusy.
Qed.

Lemma acquireBottles_all_or_nothing_refused :
  ∃ ok bottles',
    acquireBottles 1 [1; 2] [0; 0; -1] = Ret (ok, bottles') ∧
    (ok = true ↔
     Forall (λ r, is_free [0; 0; -1] r ∨ owned_by [0; 0; -1] r 1) [1; 2]) ∧
    (ok = true → Forall (λ r, owned_by bottles' r 1) [1; 2]) ∧
    (ok = false → bottles' = [0; 0; -1]).
Proof.
  apply (acquireBottles_all_or_nothing 1 [1; 2] [0; 0; -1]).
  - unfold FREE. lia.
  - unfold in_pool. repeat constructor; simpl; lia.
Defined.

(** C3. [releaseBottles a] always returns; every bottle owned by [a] is
    free afterwards, no bottle of the pool is owned by [a] afterwards, and
    the pool is untouched when [a] owns nothing. *)
Theorem releaseBottles_complete a bottles :
  ∃ bottles',
    releaseBottles a bottles = Ret bottles' ∧
    length bottles' = length bottles ∧
    (∀ r, owned_by bottles r a → is_free bottles' r) ∧
    (∀ r, ¬ owned_by bottles' r a) ∧
    ((∀ r, ¬ owned_by bottles r a) → bottles' = bottles).
Proof.
  eexists. split; [apply releaseBottles_Ret|].
  split_and!.
  - by rewrite length_fmap.
  - intros r Hr. unfold is_free, owned_by in *.
    rewrite owner_released, Hr. simpl. by rewrite decide_True.
  - intros r. unfold owned_by. rewrite owner_released.
    destruct (Bottles.owner bottles r) as [s|]; [|done]. simpl.
    case_decide; [done|]. congruence.
  - intros Hnone. apply list_eq. intros i. rewrite list_lookup_fmap.
    destruct (bottles !! i) as [v|] eqn:Hv; [|done]. simpl. f_equal.
    destruct (Z.eqb_spec v a) as [->|]; [|done].
    destruct (decide (a = -1)) as [|Hfree]; [done|].
    destruct (Hnone (Z.of_nat i)). apply owned_by_iff.
    rewrite Nat2Z.id. split_and!; [lia|done|done].
Qed.

Lemma releaseBottles_complete_idle :
  ∃ bottles', releaseBottles 1 [0; 0; -1] = Ret bottles' ∧
              bottles' = [0; 0; -1].
Proof.
  destruct (releaseBottles_complete 1 [0; 0; -1])
    as (bottles' & Hrel & _ & _ & _ & Hidle).
  exists bottles'. split; [exact Hrel|]. apply Hidle.
  intros r (Hr & Hv & _)%owned_by_iff.
  destruct (Z.to_nat r) as [|[|[|n]]]; simpl in Hv; discriminate Hv.
Defined.

(** C4. Re-acquiring is benign: when every bottle of [S] is owned by [a] or
    free, [acquireBottles a S] returns [true] and every bottle [a] owned
    before is still owned by [a]; when [a] owns all of [S] already, the
    pool does not change at all. *)
Theorem acquireBottles_reacquire a S bottles :
  Forall (λ r, owned_by bottles r a ∨ is_free bottles r) S →
  ∃ bottles',
    acquireBottles a S bottles = Ret (true, bottles') ∧
    (∀ r, owned_by bottles r a → owned_by bottles' r a) ∧
    (Forall (λ r, owned_by bottles r a) S → bottles' = bottles).
Proof.
  intros HS.
  assert (Forall (λ r, is_free bottles r ∨ owned_by bottles r a) S) as Hav.
  { eapply Forall_impl; [exact HS|]. naive_solver. }
  destruct (acquireBottles_success a S bottles Hav) as (b' & Hacq & _ & Hlk).
  exists b'. split_and!; [done| |].
  - intros r Hr. apply owned_by_iff in Hr as (Hr & Hv & Ha).
    apply owned_by_iff. split_and!; [done| |done].
    rewrite Hlk. case_decide; [done|]. done.
  - intros Hown. apply list_eq. intros i. rewrite Hlk.
    case_decide as Hi; [|done].
    rewrite Forall_forall in Hown. apply Hown in Hi.
    apply owned_by_iff in Hi as (_ & Hv & _). by rewrite Nat2Z.id in Hv.
Qed.

Lemma acquireBottles_reacquire_mixed :
  ∃ bottles',
    acquireBottles 0 [1; 2] [0; 0; -1] = Ret (true, bottles') ∧
    (∀ r, owned_by [0; 0; -1] r 0 → owned_by bottles' r 0) ∧
    (Forall (λ r, owned_by [0; 0; -1] r 0) [1; 2] → bottles' = [0; 0; -1]).
Proof.
  apply (acquireBottles_reacquire 0 [1; 2] [0; 0; -1]).
  constructor; [left; reflexivity|].
  constructor; [right; reflexivity|]. constructor.
Defined.

(** C5. With no bottle requested, [acquireBottles] returns [true] and the
    pool is the one before the call, for every pool and philosopher. *)
Theorem acquireBottles_empty a bottles :
  acquireBottles a [] bottles = Ret (true, bottles).
Proof. reflexivity. Qed.

(** C10. The operations leave the other bottles alone: after a successful
    [acquireBottles a S] every bottle outside [S] has the owner it had;
    after [releaseBottles a] every bottle that was free or owned by some
    other philosopher has the owner it had. *)
Theorem pool_frame a S bottles :
  (∀ bottles', acquireBottles a S bottles = Ret (true, bottles') →
     ∀ r, r ∉ S → Bottles.owner bottles' r = Bottles.owner bottles r) ∧
  (∃ bottles', releaseBottles a bottles = Ret bottles' ∧
     ∀ r, is_free bottles r ∨ (∃ a', a' ≠ a ∧ owned_by bottles r a') →
          Bottles.owner bottles' r = Bottles.owner bottles r).
Proof.
  split.
  - intros b' Hacq r Hr.
    pose proof (acquireBottles_true_inv a S bottles b' Hacq) as Hav.
    destruct (acquireBottles_success a S bottles Hav) as (b'' & Hacq' & _ & Hlk).
    assert (b'' = b') as -> by congruence.
    rewrite (owner_marked a S bottles b' r (available_in_pool a S _ Hav) Hlk).
    by rewrite decide_False.
  - eexists. split; [apply releaseBottles_Ret|].
    intros r Hr. rewrite owner_released.
    destruct Hr as [Hr|(a' & Ha' & Hr)];
      unfold is_free, owned_by in Hr; rewrite Hr; simpl; [done|].
    rewrite decide_False; [done|]. congruence.
Qed.

Lemma pool_frame_scenario :
  Bottles.owner [0; 0; 2] 2 = Bottles.owner [-1; -1; 2] 2 ∧
  ∃ bottles', releaseBottles 0 [0; 0; 2] = Ret bottles' ∧
              Bottles.owner bottles' 2 = Bottles.owner [0; 0; 2] 2.
Proof.
  destruct (pool_frame 0 [0; 1] [-1; -1; 2]) as [Hacquire _].
  destruct (pool_frame 0 [] [0; 0; 2]) as [_ (bottles' & Hrel & Hrelease)].
  split.
  - apply (Hacquire [0; 0; 2]); [reflexivity|].
    intros Hin%list_elem_of_In. simpl in Hin. lia.
  - exists bottles'. split; [exact Hrel|]. apply Hrelease.
    right. exists 2. split; [lia|reflexivity].
Defined.

End pool_operations.

(** ** Runs: one holder per bottle *)

Section runs.
Import Bottles Run.
Implicit Types (w : world) (o : op) (n : nat).

Lemma start_consistent n : consistent (start n).
Proof.
  intros a r. simpl. split; [set_solver|].
  intros (_ & Hv & Ha)%owned_by_iff. unfold Bottles.Bottles in Hv.
  apply lookup_replicate in Hv as [-> _]. done.
Qed.

Lemma step_consistent n w o :
  wf_op n o → length (pool w) = n → consistent w →
  ∃ w', step w o = Ret w' ∧ length (pool w') = n ∧ consistent w'.
Proof.
  intros Hwf Hlen Hw. destruct o as [id S|id]; simpl in *.
  - destruct Hwf as [Hid HS].
    assert (Forall (in_pool (pool w)) S) as HS'.
    { eapply Forall_impl; [exact HS|]. unfold in_pool. intros; lia. }
    destruct (acquireBottles_cases id S (pool w) HS')
      as [[Hav _]|[_ ->]]; simpl.
    2:{ eexists. split; [done|]. split; [done|]. exact Hw. }
    destruct (acquireBottles_success id S (pool w) Hav)
      as (b' & -> & Hlen' & Hlk). simpl.
    eexists. split; [done|]. split; [simpl; lia|].
    intros a r. simpl. unfold owned_by.
    rewrite (owner_marked id S (pool w) b' r HS' Hlk).
    assert (show_slot id = P id) as ->.
    { unfold show_slot, FREE in *. by destruct (Z.eqb_spec id (-1)). }
    rewrite elem_of_union, elem_of_list_to_set, list_elem_of_fmap.
    rewrite (Hw a r). unfold owned_by.
    case_decide as Hr.
    + split; [|intros [= ->]; right; by exists r].
      intros [Hown|(r' & [= -> ->] & _)]; [|done].
      rewrite Forall_forall in Hav. destruct (Hav r Hr) as [Hfree|Hmine].
      * unfold is_free in Hfree. congruence.
      * unfold owned_by in Hmine. congruence.
    + split; [|by left]. intros [Hown|(r' & [= -> ->] & ?)]; done.
  - rewrite releaseBottles_Ret. simpl.
    eexists. split; [done|]. split; [simpl; by rewrite length_fmap|].
    intros a r. simpl. unfold owned_by. rewrite owner_released.
    rewrite elem_of_filter, (Hw a r). unfold owned_by. simpl.
    destruct (Bottles.owner (pool w) r) as [s|]; simpl; [|naive_solver].
    case_decide as Hs.
    + subst s. split; [intros [? [= ->]]; done|done].
    + split; [by intros [_ ?]|]. intros [= ->]. split; [|done].
      intros ->. done.
Qed.

Lemma exec_consistent n ops w :
  Forall (wf_op n) ops → length (pool w) = n → consistent w →
  ∃ w', exec w ops = Ret w' ∧ length (pool w') = n ∧ consistent w'.
Proof.
  intros Hops. revert w. induction Hops as [|o ops Ho _ IH]; intros w Hlen Hw.
  { by exists w. }
  destruct (step_consistent n w o Ho Hlen Hw) as (w1 & Hstep & Hlen1 & Hw1).
  simpl. rewrite Hstep. simpl. by apply IH.
Qed.

(** C2. Mutual exclusion.  Start from a pool of [n] free bottles and run
    any sequence of [acquireBottles] and [releaseBottles] calls issued by
    philosophers on bottles of the pool.  After every step of the run the
    calls have returned, every bottle is reported free or owned by one
    philosopher, that philosopher is exactly the one holding the bottle,
    and no bottle is held by two philosophers. *)
Theorem mutual_exclusion n ops pre :
  Forall (wf_op n) ops →
  pre `prefix_of` ops →
  ∃ w, exec (start n) pre = Ret w ∧
    length (pool w) = n ∧
    (∀ r, 0 ≤ r < Z.of_nat n →
          is_free (pool w) r ∨ ∃ a, owned_by (pool w) r a) ∧
    (∀ a r, (a, r) ∈ holding w ↔ owned_by (pool w) r a) ∧
    (∀ a1 a2 r, (a1, r) ∈ holding w → (a2, r) ∈ holding w → a1 = a2).
Proof.
  intros Hops [rest ->]. apply Forall_app in Hops as [Hpre _].
  destruct (exec_consistent n pre (start n) Hpre) as (w & Hw & Hlen & Hcons).
  { simpl. apply length_replicate. }
  { apply start_consistent. }
  exists w. split_and!; [done|done| |exact Hcons|].
  - intros r Hr.
    destruct (lookup_lt_is_Some_2 (pool w) (Z.to_nat r)) as [v Hv]; [lia|].
    destruct (decide (v = FREE)) as [->|Hfree].
    + left. apply is_free_iff. split; [lia|done].
    + right. exists v. apply owned_by_iff. split_and!; [lia|done|done].
  - intros a1 a2 r H1%Hcons H2%Hcons. unfold owned_by in *. congruence.
Qed.

Lemma mutual_exclusion_scenario :
  ∃ w, exec (start 3) [requestBottles 0 [0; 1]; requestBottles 1 [1; 2]]
       = Ret w ∧
    length (pool w) = 3%nat ∧
    (∀ r, 0 ≤ r < Z.of_nat 3 →
          is_free (pool w) r ∨ ∃ a, owned_by (pool w) r a) ∧
    (∀ a r, (a, r) ∈ holding w ↔ owned_by (pool w) r a) ∧
    (∀ a1 a2 r, (a1, r) ∈ holding w → (a2, r) ∈ holding w → a1 = a2).
Proof.
  apply (mutual_exclusion 3
           [requestBottles 0 [0; 1]; requestBottles 1 [1; 2];
            releaseBottles 0; requestBottles 1 [1; 2]]).
  - repeat (constructor;
            [cbv [wf_op FREE]; try split; [lia|repeat constructor; lia..]|]).
    constructor.
  - by exists [releaseBottles 0; requestBottles 1 [1; 2]].
Defined.

End runs.

(** ** Ordered maps *)

Section ordered_map.
Implicit Types (k v : Z) (m : list (Z * Z)).

Lemma map_assign_elem k v m : (k, v) ∈ map_assign k v m.
Proof.
  induction m as [|[k' v'] m IH]; simpl; [set_solver|].
  destruct (k <? k'); [set_solver|].
  destruct (k =? k'); set_solver.
Qed.

(** A second assignment to a key overwrites the first. *)
Lemma map_assign_assign k v1 v2 m :
  map_assign k v2 (map_assign k v1 m) = map_assign k v2 m.
Proof.
  induction m as [|[k' v'] m IH]; simpl.
  { by rewrite Z.ltb_irrefl, Z.eqb_refl. }
  destruct (k <? k') eqn:Hlt; simpl.
  { by rewrite Z.ltb_irrefl, Z.eqb_refl. }
  destruct (k =? k') eqn:Heq; simpl.
  { by rewrite Z.ltb_irrefl, Z.eqb_refl. }
  by rewrite Hlt, Heq, IH.
Qed.

(** An assignment to a key that is present adds no entry. *)
Lemma map_assign_again_length k v1 v2 m :
  length (map_assign k v2 (map_assign k v1 m)) = length (map_assign k v1 m).
Proof.
  induction m as [|[k' v'] m IH]; simpl.
  { by rewrite Z.ltb_irrefl, Z.eqb_refl. }
  destruct (k <? k') eqn:Hlt; simpl.
  { by rewrite Z.ltb_irrefl, Z.eqb_refl. }
  destruct (k =? k') eqn:Heq; simpl.
  { by rewrite Z.ltb_irrefl, Z.eqb_refl. }
  by rewrite Hlt, Heq; simpl; rewrite IH.
Qed.

End ordered_map.

(** ** The graph *)

Section graph.
Import Graph.
Implicit Types (g : Graph.t) (a b r id : Z).

Lemma getAdjacentBottles_Ret id g l :
  getAdjacentBottles id g = Ret l ↔
  0 ≤ id ∧ ∃ row, g !! Z.to_nat id = Some row ∧ l = row.*2.
Proof.
  unfold getAdjacentBottles.
  destruct (vec_get g id) as [row| |] eqn:Hget; simpl.
  - apply vec_get_Ret in Hget as [Hid Hrow]. split.
    + intros [= <-]. eauto.
    + intros (_ & row' & Hrow' & ->). congruence.
  - by apply vec_get_no_throw in Hget.
  - split; [done|]. intros (Hid & row & Hrow & _).
    assert (vec_get g id = Ret row) by by apply vec_get_Ret. congruence.
Qed.

(** Rows of the graph after [addEdge a b r]: row [a] has its entry of
    neighbour [b] assigned, then row [b] its entry of neighbour [a]. *)
Lemma addEdge_lookup a b r g :
  0 ≤ a < Z.of_nat (length g) → 0 ≤ b < Z.of_nat (length g) →
  ∃ g', addEdge a b r g = Ret g' ∧
    ∀ i : nat, g' !! i =
      (λ row, (if decide (Z.of_nat i = b) then map_assign a r else id)
                ((if decide (Z.of_nat i = a) then map_assign b r else id)
                   row)) <$> g !! i.
Proof.
  intros Ha Hb. unfold addEdge.
  destruct (vec_get_in_range g a Ha) as [row_a Hget_a]. rewrite Hget_a. simpl.
  apply vec_get_Ret in Hget_a as [_ Hrow_a].
  rewrite vec_set_in_range by done. simpl.
  set (g1 := <[Z.to_nat a := map_assign b r row_a]> g).
  assert (0 ≤ b < Z.of_nat (length g1)) as Hb1
    by (unfold g1; by rewrite length_insert).
  destruct (vec_get_in_range g1 b Hb1) as [row_b Hget_b]. rewrite Hget_b. simpl.
  apply vec_get_Ret in Hget_b as [_ Hrow_b].
  rewrite vec_set_in_range by done.
  eexists. split; [done|]. intros i.
  destruct (decide (Z.of_nat i = b)) as [<-|Hib].
  - rewrite Nat2Z.id in *. rewrite list_lookup_insert_eq by lia.
    unfold g1 in Hrow_b. destruct (decide (Z.of_nat i = a)) as [<-|Hia].
    + rewrite Nat2Z.id in *. rewrite list_lookup_insert_eq in Hrow_b by lia.
      injection Hrow_b as <-. by rewrite Hrow_a.
    + rewrite list_lookup_insert_ne in Hrow_b by lia. by rewrite Hrow_b.
  - rewrite list_lookup_insert_ne by lia. unfold g1.
    destruct (decide (Z.of_nat i = a)) as [<-|Hia].
    + rewrite Nat2Z.id in *. rewrite list_lookup_insert_eq by lia.
      by rewrite Hrow_a.
    + rewrite list_lookup_insert_ne by lia.
      by destruct (g !! i).
Qed.

Lemma addEdge_length a b r g g' :
  addEdge a b r g = Ret g' → length g' = length g.
Proof.
  unfold addEdge. destruct (vec_get g a) as [row_a| |]; simpl; [|done..].
  destruct (vec_set g a _) as [g1| |] eqn:Hg1; simpl; [|done..].
  apply vec_set_Ret in Hg1 as [_ ->].
  destruct (vec_get _ b) as [row_b| |]; simpl; [|done..].
  intros [_ ->]%vec_set_Ret. by rewrite !length_insert.
Qed.

Lemma addEdge_out_of_range a b r g :
  ¬ (0 ≤ a < Z.of_nat (length g) ∧ 0 ≤ b < Z.of_nat (length g)) →
  addEdge a b r g = Undef.
Proof.
  intros Hab. unfold addEdge.
  destruct (decide (0 ≤ a < Z.of_nat (length g))) as [Ha|Ha].
  - destruct (vec_get_in_range g a Ha) as [row_a ->]. simpl.
    rewrite vec_set_in_range by done. simpl.
    rewrite vec_get_out_of_range; [done|]. rewrite length_insert. tauto.
  - by rewrite vec_get_out_of_range.
Qed.

Lemma elem_of_bottles k v (row : list (Z * Z)) : (k, v) ∈ row → v ∈ row.*2.
Proof. intros Hin. apply list_elem_of_fmap. by exists (k, v). Qed.

(** C6. Topology symmetry: on a graph with vertices [a] and [b],
    [addEdge a b r] returns and [r] is among the adjacent bottles of [a]
    and among the adjacent bottles of [b]. *)
Theorem addEdge_symmetric a b r g :
  0 ≤ a < Z.of_nat (length g) →
  0 ≤ b < Z.of_nat (length g) →
  ∃ g' bottles_a bottles_b,
    addEdge a b r g = Ret g' ∧
    getAdjacentBottles a g' = Ret bottles_a ∧ r ∈ bottles_a ∧
    getAdjacentBottles b g' = Ret bottles_b ∧ r ∈ bottles_b.
Proof.
  intros Ha Hb. destruct (addEdge_lookup a b r g Ha Hb) as (g' & Hadd & Hlk).
  destruct (lookup_lt_is_Some_2 g (Z.to_nat a)) as [row_a Hrow_a]; [lia|].
  destruct (lookup_lt_is_Some_2 g (Z.to_nat b)) as [row_b Hrow_b]; [lia|].
  pose proof (Hlk (Z.to_nat a)) as Hga. pose proof (Hlk (Z.to_nat b)) as Hgb.
  rewrite Hrow_a in Hga. rewrite Hrow_b in Hgb. simpl in Hga, Hgb.
  rewrite !Z2Nat.id in Hga, Hgb by lia.
  rewrite (decide_True (P := a = a)) in Hga by done.
  rewrite (decide_True (P := b = b)) in Hgb by done.
  assert (∃ k, (k, r) ∈ (if decide (a = b) then map_assign a r else id)
                          (map_assign b r row_a)) as [k Hk].
  { destruct (decide (a = b)); eexists; apply map_assign_elem. }
  eexists g', _, _. split_and!; [done| | | |].
  - apply getAdjacentBottles_Ret. split; [lia|]. eauto.
  - eapply elem_of_bottles. exact Hk.
  - apply getAdjacentBottles_Ret. split; [lia|]. eauto.
  - eapply elem_of_bottles. apply map_assign_elem.
Qed.

Lemma addEdge_symmetric_first_edge :
  ∃ g' bottles_a bottles_b,
    addEdge 0 1 0 (Graph 5) = Ret g' ∧
    getAdjacentBottles 0 g' = Ret bottles_a ∧ 0 ∈ bottles_a ∧
    getAdjacentBottles 1 g' = Ret bottles_b ∧ 0 ∈ bottles_b.
Proof. apply (addEdge_symmetric 0 1 0 (Graph 5)); simpl; lia. Defined.

(** C7, as the code has it. The graph checks no index: with vertices inside
    the graph [getAdjacentBottles] and [addEdge] return, for every bottle
    id; with a vertex outside, the vector is read out of bounds, which is
    undefined behaviour; neither function throws. *)
Theorem graph_access_unchecked g id a b r :
  (0 ≤ id < Z.of_nat (length g) → ∃ l, getAdjacentBottles id g = Ret l) ∧
  (¬ (0 ≤ id < Z.of_nat (length g)) → getAdjacentBottles id g = Undef) ∧
  (0 ≤ a < Z.of_nat (length g) ∧ 0 ≤ b < Z.of_nat (length g) →
     ∃ g', addEdge a b r g = Ret g') ∧
  (¬ (0 ≤ a < Z.of_nat (length g) ∧ 0 ≤ b < Z.of_nat (length g)) →
     addEdge a b r g = Undef).
Proof.
  split_and!.
  - intros Hid. destruct (lookup_lt_is_Some_2 g (Z.to_nat id)) as [row Hrow].
    { lia. }
    eexists. apply getAdjacentBottles_Ret. split; [lia|]. eauto.
  - intros Hid. unfold getAdjacentBottles.
    by rewrite vec_get_out_of_range.
  - intros [Ha Hb]. destruct (addEdge_lookup a b r g Ha Hb) as (g' & ? & _).
    by exists g'.
  - apply addEdge_out_of_range.
Qed.

Lemma graph_access_unchecked_small :
  (∃ l, getAdjacentBottles 1 (Graph 2) = Ret l) ∧
  getAdjacentBottles 5 (Graph 2) = Undef ∧
  (∃ g', addEdge 0 1 9 (Graph 2) = Ret g') ∧
  addEdge 0 7 0 (Graph 2) = Undef.
Proof.
  destruct (graph_access_unchecked (Graph 2) 1 0 1 9) as (Hget & _ & Hadd & _).
  destruct (graph_access_unchecked (Graph 2) 5 0 7 0) as (_ & Hget' & _ & Hadd').
  split_and!.
  - apply Hget. simpl. lia.
  - apply Hget'. simpl. lia.
  - apply Hadd. simpl. lia.
  - apply Hadd'. simpl. lia.
Defined.

(** C7 fails as stated: on a graph of two vertices, asking for the bottles
    of vertex 5 and adding an edge to vertex 7 raise no out-of-range error
    (the accesses are unchecked), and an edge with the bottle id -3, which
    no pool has, is accepted. *)
Lemma graph_no_range_error :
  getAdjacentBottles 5 (Graph 2) ≠ Throw out_of_range ∧
  addEdge 0 7 0 (Graph 2) ≠ Throw out_of_range ∧
  ∃ g', addEdge 0 1 (-3) (Graph 2) = Ret g' ∧
        getAdjacentBottles 0 g' = Ret [-3].
Proof. split_and!; [done|done|]. by eexists. Qed.

(** C8, as the code has it. A pair of philosophers has one bottle: after
    [addEdge a b r1], [addEdge a b r2] replaces the bottle of the pair. The
    graph is the one [addEdge a b r2] alone gives, [r2] is among the
    adjacent bottles of [a] and of [b], and the second call adds no bottle
    to either list. *)
Theorem addEdge_replaces a b r1 r2 g :
  0 ≤ a < Z.of_nat (length g) →
  0 ≤ b < Z.of_nat (length g) →
  ∃ g1 g2,
    addEdge a b r1 g = Ret g1 ∧ addEdge a b r2 g1 = Ret g2 ∧
    addEdge a b r2 g = Ret g2 ∧
    ∀ v, v = a ∨ v = b →
      ∃ bottles_1 bottles_2,
        getAdjacentBottles v g1 = Ret bottles_1 ∧
        getAdjacentBottles v g2 = Ret bottles_2 ∧
        r2 ∈ bottles_2 ∧ length bottles_2 = length bottles_1.
Proof.
  intros Ha Hb.
  destruct (addEdge_lookup a b r1 g Ha Hb) as (g1 & Hadd1 & Hlk1).
  pose proof (addEdge_length _ _ _ _ _ Hadd1) as Hlen1.
  destruct (addEdge_lookup a b r2 g1) as (g2 & Hadd2 & Hlk2); [lia..|].
  destruct (addEdge_lookup a b r2 g Ha Hb) as (g2' & Hadd2' & Hlk2').
  assert (g2' = g2) as ->.
  { apply list_eq. intros i. rewrite Hlk2', Hlk2, Hlk1.
    destruct (g !! i) as [row|]; [simpl|done]. f_equal.
    repeat case_decide; subst; simpl; by rewrite ?map_assign_assign. }
  exists g1, g2. split_and!; [done..|].
  intros v Hv.
  assert (0 ≤ v < Z.of_nat (length g)) as Hvg by (destruct Hv; by subst).
  destruct (lookup_lt_is_Some_2 g (Z.to_nat v)) as [row Hrow]; [lia|].
  pose proof (Hlk1 (Z.to_nat v)) as Hg1. pose proof (Hlk2 (Z.to_nat v)) as Hg2.
  rewrite Hg1 in Hg2. rewrite Hrow in Hg1, Hg2. simpl in Hg1, Hg2.
  rewrite !Z2Nat.id in Hg1, Hg2 by lia.
  eexists _, _. split_and!.
  - apply getAdjacentBottles_Ret. split; [lia|]. eauto.
  - apply getAdjacentBottles_Ret. split; [lia|]. eauto.
  - repeat case_decide; simpl; try (exfalso; lia);
      eapply elem_of_bottles; subst; apply map_assign_elem.
  - rewrite !length_fmap.
    repeat case_decide; simpl; try (exfalso; lia); subst;
      by rewrite !map_assign_again_length.
Qed.

Lemma addEdge_replaces_pair :
  ∃ g1 g2,
    addEdge 0 1 0 (Graph 2) = Ret g1 ∧ addEdge 0 1 1 g1 = Ret g2 ∧
    addEdge 0 1 1 (Graph 2) = Ret g2 ∧
    ∀ v, v = 0 ∨ v = 1 →
      ∃ bottles_1 bottles_2,
        getAdjacentBottles v g1 = Ret bottles_1 ∧
        getAdjacentBottles v g2 = Ret bottles_2 ∧
        1 ∈ bottles_2 ∧ length bottles_2 = length bottles_1.
Proof. apply (addEdge_replaces 0 1 0 1 (Graph 2)); simpl; lia. Defined.

(** C8 fails as stated: after [addEdge 0 1 0] and [addEdge 0 1 1] on a graph
    of two vertices, bottle 1 alone is adjacent to either vertex; bottle 0
    is gone. *)
Lemma addEdge_twice_loses_first :
  ∃ g1 g2,
    addEdge 0 1 0 (Graph 2) = Ret g1 ∧ addEdge 0 1 1 g1 = Ret g2 ∧
    getAdjacentBottles 0 g2 = Ret [1] ∧
    getAdjacentBottles 1 g2 = Ret [1] ∧
    0 ∉ [1 : Z].
Proof.
  eexists _, _. split_and!; [done..|]. by intros [= ]%list_elem_of_singleton.
Qed.

End graph.

(** ** The thirsty transition *)

Section thirsty.
Import Graph Philosopher.
Implicit Types (adjacent shuffled required : list Z) (limit i : Z).

(** One round of the selection loop. *)
Lemma select_loop_round adjacent shuffled limit i required :
  select_loop adjacent shuffled limit i required =
  if decide (i < limit ∧ i < Z.of_nat (length adjacent)) then
    idx ← vec_get shuffled i;
    bottle ← vec_get adjacent idx;
    select_loop adjacent shuffled limit (i + 1) (required ++ [bottle])
  else Ret required.
Proof.
  rewrite select_loop_equation_1.
  destruct (decide (i < limit ∧ i < Z.of_nat (length adjacent))); [|done].
  simpl. destruct (vec_get shuffled i); [simpl|done..].
  by destruct (vec_get adjacent _).
Qed.

(** When the entries of [shuffled] that the loop reads are indices of
    [adjacent], the loop returns: it appends to [required] the bottles at
    the next [min limit size - i] entries of [shuffled]. *)
Lemma select_loop_picks adjacent shuffled limit (rounds : nat) :
  ∀ i required,
    0 ≤ i →
    rounds = Z.to_nat (Z.min limit (Z.of_nat (length adjacent)) - i) →
    (∀ j idx, i ≤ Z.of_nat j < Z.min limit (Z.of_nat (length adjacent)) →
              shuffled !! j = Some idx →
              0 ≤ idx < Z.of_nat (length adjacent)) →
    (Z.min limit (Z.of_nat (length adjacent)) ≤ Z.of_nat (length shuffled)) →
    ∃ picked,
      select_loop adjacent shuffled limit i required = Ret (required ++ picked) ∧
      Forall2 (λ bottle idx, adjacent !! Z.to_nat idx = Some bottle)
              picked (take rounds (drop (Z.to_nat i) shuffled)).
Proof.
  induction rounds as [|rounds IH]; intros i required Hi Hrounds Hidx Hlen;
    rewrite select_loop_round.
  - rewrite decide_False by lia. exists []. rewrite app_nil_r.
    split; [done|]. constructor.
  - rewrite decide_True by lia.
    destruct (lookup_lt_is_Some_2 shuffled (Z.to_nat i)) as [idx Hsh]; [lia|].
    assert (0 ≤ idx < Z.of_nat (length adjacent)) as Hin.
    { apply (Hidx (Z.to_nat i)); [lia|done]. }
    destruct (lookup_lt_is_Some_2 adjacent (Z.to_nat idx)) as [bottle Hb].
    { lia. }
    rewrite (proj2 (vec_get_Ret shuffled i idx)) by done. simpl.
    rewrite (proj2 (vec_get_Ret adjacent idx bottle)) by (split; [lia|done]).
    simpl.
    destruct (IH (i + 1) (required ++ [bottle])) as (picked & Hloop & Hpicked).
    { lia. }
    { lia. }
    { intros j idx' Hj. apply Hidx. lia. }
    { done. }
    exists (bottle :: picked). split.
    + rewrite Hloop. by rewrite <- app_assoc.
    + rewrite (drop_S _ _ _ Hsh). simpl. constructor; [done|].
      replace (S (Z.to_nat i)) with (Z.to_nat (i + 1)) by lia. done.
Qed.

(** C9. The thirsty transition. Let [adjacent] be the adjacent bottles of
    the philosopher, [rnd] the value of [rand()] and [shuffle] the random
    permutation applied to the indices of [adjacent]. The size limit is 1 or
    2; [becomeThirsty] returns with the state [THIRSTY]; the bottles needed
    are [min limit (length adjacent)] many, they are the bottles of
    [adjacent] at the first shuffled indices, each of them is in [adjacent],
    and nothing of the previous round is kept: the result is the same from
    any earlier state and needed bottles. *)
Theorem becomeThirsty_selects g rnd shuffle p adjacent :
  0 ≤ rnd →
  (∀ l, shuffle l ≡ₚ l) →
  getAdjacentBottles (id p) g = Ret adjacent →
  (Z.rem rnd 2 + 1 = 1 ∨ Z.rem rnd 2 + 1 = 2) ∧
  ∃ p',
    becomeThirsty g rnd shuffle p = Ret p' ∧
    id p' = id p ∧ state p' = THIRSTY ∧
    length (required_bottles p') =
      Nat.min (Z.to_nat (Z.rem rnd 2 + 1)) (length adjacent) ∧
    Forall2 (λ bottle idx, adjacent !! Z.to_nat idx = Some bottle)
      (required_bottles p')
      (take (Nat.min (Z.to_nat (Z.rem rnd 2 + 1)) (length adjacent))
            (shuffle (seqZ 0 (Z.of_nat (length adjacent))))) ∧
    (∀ bottle, bottle ∈ required_bottles p' → bottle ∈ adjacent) ∧
    (∀ q, id q = id p → becomeThirsty g rnd shuffle q = Ret p').
Proof.
  intros Hrnd Hperm Hadj.
  pose proof (Z.rem_bound_pos rnd 2 Hrnd ltac:(lia)) as Hrem.
  set (limit := Z.rem rnd 2 + 1) in *.
  split; [lia|].
  set (shuffled := shuffle (seqZ 0 (Z.of_nat (length adjacent)))).
  assert (length shuffled = length adjacent) as Hlen.
  { unfold shuffled. rewrite (Permutation_length (Hperm _)), length_seqZ. lia. }
  destruct (select_loop_picks adjacent shuffled limit
              (Nat.min (Z.to_nat limit) (length adjacent)) 0 [])
    as (picked & Hloop & Hpicked).
  { done. }
  { lia. }
  { intros j idx _ Hj%list_elem_of_lookup_2. unfold shuffled in Hj.
    rewrite (Hperm _) in Hj. apply elem_of_seqZ in Hj. lia. }
  { lia. }
  simpl in Hloop, Hpicked. rewrite drop_0 in Hpicked.
  assert (∀ q, id q = id p →
            becomeThirsty g rnd shuffle q =
            Ret {| id := id p; state := THIRSTY;
                   required_bottles := picked |}) as Hany.
  { intros q Hq. unfold becomeThirsty. simpl. rewrite Hq, Hadj. simpl.
    fold limit shuffled. by rewrite Hloop. }
  eexists. split; [by apply Hany|]. simpl.
  split_and!; [done|done| |done| |done].
  - pose proof Hpicked as Hsize. apply Forall2_length in Hsize.
    rewrite Hsize, length_take_le; lia.
  - intros bottle [i Hi]%list_elem_of_lookup_1.
    destruct (Forall2_lookup_l _ _ _ _ _ Hpicked Hi) as (idx & _ & Hb).
    by eapply list_elem_of_lookup_2.
Qed.

Lemma becomeThirsty_selects_philosopher_0 :
  (Z.rem 7 2 + 1 = 1 ∨ Z.rem 7 2 + 1 = 2) ∧
  ∃ p',
    becomeThirsty [[(1, 0); (2, 5); (4, 4)]; [(0, 0); (2, 1)];
                   [(0, 5); (1, 1); (3, 2)]; [(2, 2); (4, 3)];
                   [(0, 4); (3, 3)]]
                  7 reverse (Philosopher 0) = Ret p' ∧
    id p' = id (Philosopher 0) ∧ state p' = THIRSTY ∧
    length (required_bottles p') =
      Nat.min (Z.to_nat (Z.rem 7 2 + 1)) (length [0; 5; 4]) ∧
    Forall2 (λ bottle idx, [0; 5; 4] !! Z.to_nat idx = Some bottle)
      (required_bottles p')
      (take (Nat.min (Z.to_nat (Z.rem 7 2 + 1)) (length [0; 5; 4]))
            (reverse (seqZ 0 (Z.of_nat (length [0; 5; 4]))))) ∧
    (∀ bottle, bottle ∈ required_bottles p' → bottle ∈ [0; 5; 4]) ∧
    (∀ q, id q = id (Philosopher 0) →
          becomeThirsty [[(1, 0); (2, 5); (4, 4)]; [(0, 0); (2, 1)];
                         [(0, 5); (1, 1); (3, 2)]; [(2, 2); (4, 3)];
                         [(0, 4); (3, 3)]]
                        7 reverse q = Ret p').
Proof.
  apply (becomeThirsty_selects
           [[(1, 0); (2, 5); (4, 4)]; [(0, 0); (2, 1)];
            [(0, 5); (1, 1); (3, 2)]; [(2, 2); (4, 3)]; [(0, 4); (3, 3)]]
           7 reverse (Philosopher 0) [0; 5; 4]).
  - lia.
  - apply reverse_Permutation.
  - reflexivity.
Defined.

End thirsty.

(** ** The program's own checks *)

Section program.
Import Graph Bottles Philosopher.

Example main_graph_rows :
  main_graph =
  Ret [[(1, 0); (2, 5); (4, 4)]; [(0, 0); (2, 1)];
       [(0, 5); (1, 1); (3, 2)]; [(2, 2); (4, 3)]; [(0, 4); (3, 3)]].
Proof. reflexivity. Qed.

(** alphaTests, test 1: graph construction and edge addition. *)
Example alpha_test_graph :
  (g ← addEdge 0 1 0 (Graph 5); g ← addEdge 1 2 1 g; getAdjacentBottles 1 g)
  = Ret [0; 1].
Proof. reflexivity. Qed.

(** alphaTests, test 2: bottle management, with the logged pools. *)
Example alpha_test_bottles :
  acquireBottles 0 [0; 1] (Bottles 3) = Ret (true, [0; 0; -1]) ∧
  acquireBottles 1 [1; 2] [0; 0; -1] = Ret (false, [0; 0; -1]) ∧
  releaseBottles 0 [0; 0; -1] = Ret [-1; -1; -1] ∧
  acquireBottles 1 [1; 2] [-1; -1; -1] = Ret (true, [-1; 1; 1]) ∧
  logBottleState [-1; 1; 1] = [Free; P 1; P 1].
Proof. by split_and!. Qed.

(** alphaTests, test 3: a philosopher without neighbours needs nothing. *)
Example alpha_test_thirsty rnd shuffle :
  becomeThirsty (Graph 3) rnd shuffle (Philosopher 0) =
  Ret {| id := 0; state := THIRSTY; required_bottles := [] |}.
Proof.
  unfold becomeThirsty. simpl. rewrite select_loop_round.
  rewrite decide_False; [done|]. simpl. lia.
Qed.

(** A round of philosopher 2 as in the program's log ("Needs bottles: 2, 1"):
    limit 2, the indices shuffled to 2, 1, 0. *)
Example thirsty_philosopher_2 :
  (g ← main_graph; becomeThirsty g 1 reverse (Philosopher 2)) =
  Ret {| id := 2; state := THIRSTY; required_bottles := [2; 1] |}.
Proof. reflexivity. Qed.

End program.

(** ** The pool: how the operations compose *)

Section pool_composition.
Import Bottles.
Implicit Types (bottles : Bottles.t) (a c r : Z) (S T : list Z).

Lemma show_slot_agent a : a ≠ FREE → show_slot a = P a.
Proof. unfold show_slot, FREE. by destruct (Z.eqb_spec a (-1)). Qed.

Lemma acquireBottles_true_lookup a S bottles bottles' :
  acquireBottles a S bottles = Ret (true, bottles') →
  Forall (λ r, is_free bottles r ∨ owned_by bottles r a) S ∧
  length bottles' = length bottles ∧
  ∀ i : nat, bottles' !! i =
             if decide (Z.of_nat i ∈ S) then Some a else bottles !! i.
Proof.
  intros Hacq. pose proof (acquireBottles_true_inv _ _ _ _ Hacq) as Hav.
  destruct (acquireBottles_success a S bottles Hav) as (b' & Hacq' & ? & ?).
  assert (b' = bottles') as -> by congruence. done.
Qed.

Lemma owner_fresh n r :
  0 ≤ r < Z.of_nat n → Bottles.owner (Bottles.Bottles n) r = Some Free.
Proof.
  intros Hr. apply is_free_iff. split; [lia|].
  apply lookup_replicate_2. lia.
Qed.

(** The first loop answers [false] only at a bottle of someone else. *)
Lemma check_available_false a S bottles :
  check_available a S bottles = Ret false →
  ∃ r c, r ∈ S ∧ c ≠ a ∧ owned_by bottles r c.
Proof.
  induction S as [|r S IH]; simpl; [done|].
  destruct (vec_get bottles r) as [v| |] eqn:Hget; simpl; [|done..].
  apply vec_get_Ret in Hget as [Hr Hv].
  destruct (Z.eqb_spec v (-1)) as [->|Hfree]; simpl.
  { intros (r' & c & ? & ?)%IH. exists r', c. set_solver. }
  destruct (Z.eqb_spec v a) as [->|Hother]; simpl.
  { intros (r' & c & ? & ?)%IH. exists r', c. set_solver. }
  intros _. exists r, v. split_and!; [set_solver|done|].
  by apply owned_by_iff.
Qed.



Lemma mark_all_no_throw a S bottles e : mark_all a S bottles ≠ Throw e.
Proof.
  revert bottles. induction S as [|r S IH]; intros bottles; simpl; [done|].
  unfold vec_set. case_decide; simpl; [apply IH|done].
Qed.

(** X1. On a new pool every request for bottles of the pool is granted:
    afterwards exactly the requested bottles are owned by the requester and
    all others are free. *)
Theorem fresh_pool_request n a S :
  a ≠ FREE →
  Forall (λ r, 0 ≤ r < Z.of_nat n) S →
  ∃ bottles',
    acquireBottles a S (Bottles.Bottles n) = Ret (true, bottles') ∧
    length bottles' = n ∧
    ∀ r, 0 ≤ r < Z.of_nat n →
         Bottles.owner bottles' r = Some (if decide (r ∈ S) then P a else Free).
Proof.
  intros Ha HS.
  assert (Forall (λ r, is_free (Bottles.Bottles n) r ∨
                       owned_by (Bottles.Bottles n) r a) S) as Hav.
  { eapply Forall_impl; [exact HS|]. intros r Hr. left. by apply owner_fresh. }
  destruct (acquireBottles_success a S _ Hav) as (b' & Hacq & Hlen & Hlk).
  exists b'. split_and!; [done| |].
  { rewrite Hlen. apply length_replicate. }
  intros r Hr.
  rewrite (owner_marked a S _ b' r (available_in_pool a S _ Hav) Hlk).
  case_decide; [by rewrite show_slot_agent|by apply owner_fresh].
Qed.

Lemma fresh_pool_request_two_of_three :
  ∃ bottles',
    acquireBottles 0 [0; 1] (Bottles.Bottles 3) = Ret (true, bottles') ∧
    length bottles' = 3%nat ∧
    ∀ r, 0 ≤ r < Z.of_nat 3 →
         Bottles.owner bottles' r =
         Some (if decide (r ∈ [0; 1]) then P 0 else Free).
Proof.
  apply (fresh_pool_request 3 0 [0; 1]).
  - unfold FREE. lia.
  - repeat constructor; lia.
Defined.

(** X2. A refusal names its reason: when [acquireBottles] returns [false],
    the pool is the one it was given and some requested bottle is owned by
    another philosopher. *)
Theorem acquireBottles_refusal a S bottles bottles' :
  acquireBottles a S bottles = Ret (false, bottles') →
  bottles' = bottles ∧ ∃ r c, r ∈ S ∧ c ≠ a ∧ owned_by bottles r c.
Proof.
  unfold acquireBottles.
  destruct (check_available a S bottles) as [[|]| |] eqn:Hcheck; simpl;
    [|intros [= <-]; split; [done|by apply check_available_false]|done..].
  by destruct (mark_all a S bottles).
Qed.

Lemma acquireBottles_refusal_second_philosopher :
  [0; 0; -1] = [0; 0; -1] ∧
  ∃ r c, r ∈ [1; 2] ∧ c ≠ 1 ∧ owned_by [0; 0; -1] r c.
Proof.
  apply (acquireBottles_refusal 1 [1; 2] [0; 0; -1] [0; 0; -1]). reflexivity.
Defined.


(** X4. Asking again changes nothing: a granted request, repeated on the
    pool it produced, is granted and gives the same pool. *)
Theorem acquireBottles_idempotent a S bottles bottles' :
  acquireBottles a S bottles = Ret (true, bottles') →
  acquireBottles a S bottles' = Ret (true, bottles').
Proof.
  intros (Hav & Hlen & Hlk)%acquireBottles_true_lookup.
  assert (Forall (λ r, is_free bottles' r ∨ owned_by bottles' r a) S) as Hav'.
  { apply Forall_forall. intros r Hr. unfold is_free, owned_by.
    rewrite (owner_marked a S bottles bottles' r
               (available_in_pool a S _ Hav) Hlk), decide_True by done.
    unfold show_slot. destruct (a =? -1); eauto. }
  destruct (acquireBottles_success a S bottles' Hav') as (b'' & -> & _ & Hlk').
  do 2 f_equal. apply list_eq. intros i. rewrite Hlk', Hlk.
  by case_decide.
Qed.

Lemma acquireBottles_idempotent_first_philosopher :
  acquireBottles 0 [0; 1] [0; 0; -1] = Ret (true, [0; 0; -1]).
Proof.
  apply (acquireBottles_idempotent 0 [0; 1] [-1; -1; -1]). reflexivity.
Defined.

(** X5. Releases compose freely: releasing twice is releasing once, and two
    philosophers' releases give the same pool in either order. *)
Theorem releaseBottles_commute a c bottles :
  (bottles' ← releaseBottles a bottles; releaseBottles a bottles')
  = releaseBottles a bottles ∧
  (bottles' ← releaseBottles a bottles; releaseBottles c bottles')
  = (bottles' ← releaseBottles c bottles; releaseBottles a bottles').
Proof.
  rewrite !releaseBottles_Ret. simpl. rewrite !releaseBottles_Ret.
  split; f_equal; apply list_eq; intros i; rewrite !list_lookup_fmap;
    destruct (bottles !! i) as [v|]; simpl; try done; f_equal;
    destruct (Z.eqb_spec v a), (Z.eqb_spec v c);
    repeat match goal with
           | |- context [?x =? ?y] => destruct (Z.eqb_spec x y)
           end; lia.
Qed.

Lemma release_undoes_acquire a S bottles bottles' :
  (∀ r, ¬ owned_by bottles r a) →
  acquireBottles a S bottles = Ret (true, bottles') →
  releaseBottles a bottles' = Ret bottles.
Proof.
  intros Hnone (Hav & Hlen & Hlk)%acquireBottles_true_lookup.
  rewrite releaseBottles_Ret. f_equal. apply list_eq. intros i.
  rewrite list_lookup_fmap, Hlk.
  assert (∀ v, bottles !! i = Some v → v = a → a = -1) as Hmine.
  { intros v Hv ->. destruct (decide (a = -1)) as [|Hfree]; [done|].
    destruct (Hnone (Z.of_nat i)). apply owned_by_iff. rewrite Nat2Z.id.
    split_and!; [lia|done|done]. }
  case_decide as Hi; simpl.
  - rewrite Z.eqb_refl. rewrite Forall_forall in Hav.
    destruct (Hav _ Hi) as [Hfree|Hown].
    + apply is_free_iff in Hfree as [_ Hfree]. by rewrite Nat2Z.id in Hfree.
    + apply owned_by_iff in Hown as (_ & Hown & _).
      rewrite Nat2Z.id in Hown. rewrite Hown. f_equal.
      pose proof (Hmine a Hown eq_refl). lia.
  - destruct (bottles !! i) as [v|] eqn:Hv; [simpl|done]. f_equal.
    destruct (Z.eqb_spec v a) as [Hva|]; [|done].
    pose proof (Hmine v eq_refl Hva). lia.
Qed.

(** X6. Acquire then release is a round trip: if [a] owns nothing, a granted
    request followed by [releaseBottles a] gives back the pool before the
    request. *)
Theorem acquire_release_round_trip a S bottles bottles' :
  (∀ r, ¬ owned_by bottles r a) →
  acquireBottles a S bottles = Ret (true, bottles') →
  releaseBottles a bottles' = Ret bottles.
Proof. apply release_undoes_acquire. Qed.

Lemma acquire_release_round_trip_third_bottle :
  releaseBottles 1 [0; 0; 1] = Ret [0; 0; -1].
Proof.
  apply (acquire_release_round_trip 1 [2] [0; 0; -1] [0; 0; 1]).
  - intros r (Hr & Hv & _)%owned_by_iff.
    destruct (Z.to_nat r) as [|[|[|n]]]; simpl in Hv; discriminate Hv.
  - reflexivity.
Defined.

(** X7. Two requests that share a bottle are not both granted: once [a] has
    been granted [S], a request of another philosopher for bottles of the
    pool, one of which is in [S], is refused and changes nothing. *)
Theorem overlapping_request_refused a c S T r bottles bottles' :
  a ≠ FREE → c ≠ a → r ∈ S → r ∈ T →
  Forall (in_pool bottles) T →
  acquireBottles a S bottles = Ret (true, bottles') →
  acquireBottles c T bottles' = Ret (false, bottles').
Proof.
  intros Ha Hca HrS HrT HT (Hav & Hlen & Hlk)%acquireBottles_true_lookup.
  apply acquireBottles_failure.
  { eapply Forall_impl; [exact HT|]. unfold in_pool. intros; lia. }
  rewrite Forall_forall. intros HavT. specialize (HavT r HrT).
  unfold is_free, owned_by in HavT.
  rewrite (owner_marked a S bottles bottles' r
             (available_in_pool a S _ Hav) Hlk), decide_True in HavT by done.
  rewrite show_slot_agent in HavT by done. naive_solver.
Qed.

Lemma overlapping_request_refused_alpha_test :
  acquireBottles 1 [1; 2] [0; 0; -1] = Ret (false, [0; 0; -1]).
Proof.
  apply (overlapping_request_refused 0 1 [0; 1] [1; 2] 1 [-1; -1; -1]).
  - unfold FREE. lia.
  - lia.
  - apply list_elem_of_In. simpl. lia.
  - apply list_elem_of_In. simpl. lia.
  - unfold in_pool. repeat constructor; simpl; lia.
  - reflexivity.
Defined.

(** X8. Requests for disjoint bottles do not interfere: if each of two
    requests is granted on a pool, then each is granted after the other, and
    the two orders give the same pool. *)
Theorem disjoint_requests_commute a c S T bottles bottles_a bottles_c :
  (∀ r, r ∈ S → r ∉ T) →
  acquireBottles a S bottles = Ret (true, bottles_a) →
  acquireBottles c T bottles = Ret (true, bottles_c) →
  ∃ bottles',
    acquireBottles c T bottles_a = Ret (true, bottles') ∧
    acquireBottles a S bottles_c = Ret (true, bottles').
Proof.
  intros Hdisj (HavS & _ & HlkS)%acquireBottles_true_lookup
         (HavT & _ & HlkT)%acquireBottles_true_lookup.
  pose proof (available_in_pool a S _ HavS) as HS.
  pose proof (available_in_pool c T _ HavT) as HT.
  assert (Forall (λ r, is_free bottles_a r ∨ owned_by bottles_a r c) T) as HavT'.
  { apply Forall_forall. intros r Hr. unfold is_free, owned_by.
    rewrite (owner_marked a S bottles bottles_a r HS HlkS).
    rewrite decide_False by (intros ?; by eapply Hdisj).
    rewrite Forall_forall in HavT. by apply HavT. }
  assert (Forall (λ r, is_free bottles_c r ∨ owned_by bottles_c r a) S) as HavS'.
  { apply Forall_forall. intros r Hr. unfold is_free, owned_by.
    rewrite (owner_marked c T bottles bottles_c r HT HlkT).
    rewrite decide_False by by apply Hdisj.
    rewrite Forall_forall in HavS. by apply HavS. }
  destruct (acquireBottles_success c T bottles_a HavT') as (b1 & -> & _ & Hlk1).
  destruct (acquireBottles_success a S bottles_c HavS') as (b2 & -> & _ & Hlk2).
  exists b1. split; [done|]. do 2 f_equal. apply list_eq. intros i.
  rewrite Hlk1, Hlk2, HlkS, HlkT.
  repeat case_decide; try done. exfalso. by eapply Hdisj.
Qed.

Lemma disjoint_requests_commute_neighbours :
  ∃ bottles',
    acquireBottles 1 [2] [0; 0; -1; -1] = Ret (true, bottles') ∧
    acquireBottles 0 [0; 1] [-1; -1; 1; -1] = Ret (true, bottles').
Proof.
  apply (disjoint_requests_commute 0 1 [0; 1] [2] [-1; -1; -1; -1]).
  - intros r Hr%list_elem_of_In Hr'%list_elem_of_In. simpl in *. lia.
  - reflexivity.
  - reflexivity.
Defined.

(** X9. What one philosopher releases the next can take: after
    [releaseBottles a], a request of [c] for bottles that were free, owned by
    [a] or owned by [c] is granted. *)
Theorem release_then_acquire a c T bottles :
  Forall (λ r, is_free bottles r ∨ owned_by bottles r a ∨ owned_by bottles r c)
         T →
  ∃ released bottles',
    releaseBottles a bottles = Ret released ∧
    acquireBottles c T released = Ret (true, bottles').
Proof.
  intros HT. rewrite releaseBottles_Ret.
  assert (Forall (λ r,
            is_free ((λ v, if v =? a then -1 else v) <$> bottles) r ∨
            owned_by ((λ v, if v =? a then -1 else v) <$> bottles) r c) T)
    as Hav.
  { eapply Forall_impl; [exact HT|]. intros r Hr. unfold is_free, owned_by.
    rewrite owner_released. unfold is_free, owned_by in Hr.
    destruct Hr as [->|[->| ->]]; simpl.
    - by left.
    - left. by rewrite decide_True.
    - case_decide; [by left|by right]. }
  destruct (acquireBottles_success c T _ Hav) as (b' & Hacq & _).
  eexists _, b'. by split.
Qed.

Lemma release_then_acquire_alpha_test :
  ∃ released bottles',
    releaseBottles 0 [0; 0; -1] = Ret released ∧
    acquireBottles 1 [1; 2] released = Ret (true, bottles').
Proof.
  apply (release_then_acquire 0 1 [1; 2] [0; 0; -1]).
  constructor; [right; left; reflexivity|].
  constructor; [left; reflexivity|]. constructor.
Defined.

(** X10. The logged snapshot loses nothing: two pools with the same snapshot
    are the same pool. *)
Theorem logBottleState_inj bottles1 bottles2 :
  logBottleState bottles1 = logBottleState bottles2 → bottles1 = bottles2.
Proof.
  unfold logBottleState. revert bottles2.
  induction bottles1 as [|v1 b1 IH]; intros [|v2 b2]; simpl; try done.
  intros [= Hv Hb]. f_equal; [|by apply IH].
  unfold show_slot in Hv.
  destruct (Z.eqb_spec v1 (-1)), (Z.eqb_spec v2 (-1)); congruence.
Qed.

Lemma logBottleState_inj_two_bottles :
  [0; -1] = [0; -1].
Proof. apply (logBottleState_inj [0; -1] [0; -1]). reflexivity. Defined.

End pool_composition.

(** ** Topologies: what a sequence of [addEdge] calls keeps *)

Section topology.
Import Graph Topology.
Implicit Types (g : Graph.t) (a b r x y s : Z) (m : list (Z * Z))
  (edges : list (Z * Z * Z)).

Lemma map_assign_keys k v m x :
  x ∈ (map_assign k v m).*1 → x = k ∨ x ∈ m.*1.
Proof.
  induction m as [|[k' v'] m IH]; simpl; [set_solver|].
  destruct (k <? k'); [set_solver|].
  destruct (k =? k'); set_solver.
Qed.

Lemma map_assign_sorted k v m :
  StronglySorted Z.lt (m.*1) → StronglySorted Z.lt ((map_assign k v m).*1).
Proof.
  induction m as [|[k' v'] m IH]; simpl; intros Hs.
  { repeat constructor. }
  apply StronglySorted_inv in Hs as [Hs Hall].
  destruct (Z.ltb_spec k k').
  { simpl. constructor; [by constructor|]. constructor; [done|].
    eapply Forall_impl; [exact Hall|]. simpl. intros; lia. }
  destruct (Z.eqb_spec k k') as [->|Hne]; simpl.
  { by constructor. }
  constructor; [by apply IH|].
  apply Forall_forall. intros x [->|Hx]%map_assign_keys; [lia|].
  rewrite Forall_forall in Hall. by apply Hall.
Qed.

(** In a row with ascending keys an assignment replaces the entry of its
    key and keeps the others. *)
Lemma map_assign_elem_iff k v m y s :
  StronglySorted Z.lt (m.*1) →
  (y, s) ∈ map_assign k v m ↔ (y = k ∧ s = v) ∨ (y ≠ k ∧ (y, s) ∈ m).
Proof.
  induction m as [|[k' v'] m IH]; simpl; intros Hs.
  { set_solver. }
  apply StronglySorted_inv in Hs as [Hs Hall].
  assert (∀ s', (y, s') ∈ m → k' < y) as Hlater.
  { intros s' Hin. rewrite Forall_forall in Hall. apply Hall.
    apply list_elem_of_fmap. by exists (y, s'). }
  destruct (Z.ltb_spec k k').
  { rewrite !elem_of_cons. split.
    - intros [[= -> ->]|[[= -> ->]|Hin]]; [by left|right..].
      + split; [lia|by left].
      + split; [|by right]. apply Hlater in Hin. lia.
    - intros [[-> ->]|[_ Hin]]; [by left|by right]. }
  destruct (Z.eqb_spec k k') as [->|Hne].
  { rewrite !elem_of_cons. split.
    - intros [[= -> ->]|Hin]; [by left|right].
      split; [|by right]. apply Hlater in Hin. lia.
    - intros [[-> ->]|[Hy [[= -> ->]|Hin]]]; [by left|done|by right]. }
  rewrite !elem_of_cons, IH by done. split.
  - intros [[= -> ->]|[?|[? ?]]]; [right|by left|right].
    + split; [done|by left].
    + split; [done|by right].
  - intros [?|[Hy [[= -> ->]|Hin]]]; [right; by left|by left|].
    right. right. done.
Qed.

(** With ascending keys a neighbour has one bottle. *)
Lemma sorted_row_functional m y s1 s2 :
  StronglySorted Z.lt (m.*1) → (y, s1) ∈ m → (y, s2) ∈ m → s1 = s2.
Proof.
  induction m as [|[k' v'] m IH]; simpl; intros Hs; [by intros ?%elem_of_nil|].
  apply StronglySorted_inv in Hs as [Hs Hall].
  assert (∀ s', (k', s') ∈ m → False) as Hfresh.
  { intros s' Hin. rewrite Forall_forall in Hall.
    assert (k' < k'); [|lia]. apply Hall.
    apply list_elem_of_fmap. by exists (k', s'). }
  rewrite !elem_of_cons.
  intros [[= -> ->]|H1] [[= ?]|H2]; subst; try done.
  - by destruct (Hfresh s2).
  - by destruct (Hfresh s1).
  - by apply IH.
Qed.

Lemma addEdge_in_range a b r g g' :
  addEdge a b r g = Ret g' →
  0 ≤ a < Z.of_nat (length g) ∧ 0 ≤ b < Z.of_nat (length g).
Proof.
  intros Hadd.
  destruct (decide (0 ≤ a < Z.of_nat (length g) ∧
                    0 ≤ b < Z.of_nat (length g))) as [|Hout]; [done|].
  rewrite (addEdge_out_of_range a b r g Hout) in Hadd. done.
Qed.

Lemma addEdge_Ret_lookup a b r g g' :
  addEdge a b r g = Ret g' →
  ∀ i : nat, g' !! i =
    (λ row, (if decide (Z.of_nat i = b) then map_assign a r else id)
              ((if decide (Z.of_nat i = a) then map_assign b r else id)
                 row)) <$> g !! i.
Proof.
  intros Hadd. destruct (addEdge_in_range _ _ _ _ _ Hadd) as [Ha Hb].
  destruct (addEdge_lookup a b r g Ha Hb) as (g'' & Hadd' & Hlk).
  by assert (g'' = g') as -> by congruence.
Qed.

Lemma addEdge_ascending a b r g g' :
  ascending g → addEdge a b r g = Ret g' → ascending g'.
Proof.
  unfold ascending. rewrite !Forall_lookup. intros Hg Hadd i row' Hrow'.
  rewrite (addEdge_Ret_lookup _ _ _ _ _ Hadd) in Hrow'.
  destruct (g !! i) as [row|] eqn:Hrow; [|done]. injection Hrow' as <-.
  specialize (Hg i row Hrow). simpl in Hg.
  repeat case_decide; simpl; auto using map_assign_sorted.
Qed.

Lemma row_after_addEdge a b r x m y s :
  StronglySorted Z.lt (m.*1) →
  (y, s) ∈ (if decide (x = b) then map_assign a r else id)
             ((if decide (x = a) then map_assign b r else id) m) ↔
  ((x = a ∧ y = b ∨ x = b ∧ y = a) ∧ s = r) ∨
  (¬ (x = a ∧ y = b ∨ x = b ∧ y = a) ∧ (y, s) ∈ m).
Proof.
  intros Hs. destruct (decide (x = b)) as [->|Hxb], (decide (b = a)) as [->|Hba];
    simpl.
  - rewrite map_assign_assign, map_assign_elem_iff by done. naive_solver.
  - rewrite map_assign_elem_iff by done. naive_solver.
  - destruct (decide (x = a)) as [->|Hxa]; simpl.
    + rewrite map_assign_elem_iff by done. naive_solver.
    + naive_solver.
  - destruct (decide (x = a)) as [->|Hxa]; simpl.
    + rewrite map_assign_elem_iff by done. naive_solver.
    + naive_solver.
Qed.

(** The entries of the graph after [addEdge a b r]: the pair [a], [b] has
    bottle [r] in both rows, every other entry is as before. *)
Lemma adjacent_addEdge a b r g g' x y s :
  ascending g → addEdge a b r g = Ret g' →
  adjacent g' x y s ↔
  ((x = a ∧ y = b ∨ x = b ∧ y = a) ∧ s = r) ∨
  (¬ (x = a ∧ y = b ∨ x = b ∧ y = a) ∧ adjacent g x y s).
Proof.
  intros Hg Hadd. pose proof (addEdge_Ret_lookup _ _ _ _ _ Hadd) as Hlk.
  destruct (addEdge_in_range _ _ _ _ _ Hadd) as [Ha Hb].
  assert (∀ row, g !! Z.to_nat x = Some row → StronglySorted Z.lt (row.*1))
    as Hsorted.
  { intros row Hrow. unfold ascending in Hg. rewrite Forall_lookup in Hg.
    by eapply Hg. }
  unfold adjacent. split.
  - intros (Hx & row' & Hrow' & Hin). rewrite Hlk, Z2Nat.id in Hrow' by done.
    destruct (g !! Z.to_nat x) as [row|] eqn:Hrow; [|done].
    injection Hrow' as <-.
    apply row_after_addEdge in Hin as [?|[? ?]]; [by left| |by apply Hsorted].
    right. eauto.
  - intros [[Hpair ->]|[Hpair (Hx & row & Hrow & Hin)]].
    + assert (0 ≤ x < Z.of_nat (length g)) as Hx by (destruct Hpair; lia).
      destruct (lookup_lt_is_Some_2 g (Z.to_nat x)) as [row Hrow]; [lia|].
      split; [lia|]. eexists. rewrite Hlk, Z2Nat.id, Hrow by lia.
      split; [done|]. apply row_after_addEdge; [by apply Hsorted|by left].
    + split; [done|]. eexists. rewrite Hlk, Z2Nat.id, Hrow by lia.
      split; [done|]. apply row_after_addEdge; [by apply Hsorted|by right].
Qed.

Lemma Graph_ascending n : ascending (Graph n).
Proof.
  unfold ascending, Graph. apply Forall_replicate. constructor.
Qed.

Lemma Graph_no_entry n a b r : ¬ adjacent (Graph n) a b r.
Proof.
  intros (_ & row & Hrow & Hin). unfold Graph in Hrow.
  apply lookup_replicate in Hrow as [-> _]. by apply elem_of_nil in Hin.
Qed.

Lemma addEdges_cons_inv a b r edges g g' :
  addEdges ((a, b, r) :: edges) g = Ret g' →
  ∃ g1, addEdge a b r g = Ret g1 ∧ addEdges edges g1 = Ret g'.
Proof.
  simpl. destruct (addEdge a b r g) as [g1| |]; simpl; [|done..]. eauto.
Qed.

Lemma addEdges_ascending edges g g' :
  ascending g → addEdges edges g = Ret g' → ascending g'.
Proof.
  revert g. induction edges as [|[[a b] r] edges IH]; intros g Hg.
  { by intros [= <-]. }
  intros (g1 & Hadd & Hrest)%addEdges_cons_inv.
  eapply IH; [|exact Hrest]. by eapply addEdge_ascending.
Qed.

Lemma addEdges_defined edges g :
  Forall (λ e, 0 ≤ e.1.1 < Z.of_nat (length g) ∧
               0 ≤ e.1.2 < Z.of_nat (length g)) edges →
  ∃ g', addEdges edges g = Ret g' ∧ length g' = length g.
Proof.
  revert g. induction edges as [|[[a b] r] edges IH]; intros g Hedges.
  { by exists g. }
  apply Forall_cons in Hedges as [[Ha Hb] Hedges]. simpl in Ha, Hb.
  destruct (addEdge_lookup a b r g Ha Hb) as (g1 & Hadd & _).
  pose proof (addEdge_length _ _ _ _ _ Hadd) as Hlen.
  destruct (IH g1) as (g' & Hrest & Hlen').
  { by rewrite Hlen. }
  exists g'. simpl. rewrite Hadd. simpl. split; [done|congruence].
Qed.

Lemma addEdges_symmetric edges g g' :
  ascending g →
  (∀ a b r, adjacent g a b r → adjacent g b a r) →
  addEdges edges g = Ret g' →
  ∀ a b r, adjacent g' a b r → adjacent g' b a r.
Proof.
  revert g. induction edges as [|[[a b] r] edges IH]; intros g Hg Hsym.
  { by intros [= <-]. }
  intros (g1 & Hadd & Hrest)%addEdges_cons_inv.
  eapply (IH g1); [by eapply addEdge_ascending| |exact Hrest].
  intros x y s. rewrite !(adjacent_addEdge a b r g g1) by done.
  intros [[Hpair ->]|[Hpair Hadj]]; [left|right]; split; try tauto.
  by apply Hsym.
Qed.

Lemma addEdges_provenance edges g g' a b r :
  ascending g → addEdges edges g = Ret g' → adjacent g' a b r →
  adjacent g a b r ∨ (a, b, r) ∈ edges ∨ (b, a, r) ∈ edges.
Proof.
  revert g. induction edges as [|[[x y] s] edges IH]; intros g Hg.
  { intros [= <-]. by left. }
  intros (g1 & Hadd & Hrest)%addEdges_cons_inv Hadj.
  destruct (IH g1) as [Hold|[Hin|Hin]];
    [by eapply addEdge_ascending|done|done| |set_solver..].
  apply (adjacent_addEdge x y s g g1 a b r Hg Hadd) in Hold
    as [[Hpair ->]|[_ Hold]]; [|by left].
  right. destruct Hpair as [[-> ->]|[-> ->]]; set_solver.
Qed.

Lemma addEdges_keeps edges g g' a b r :
  ascending g → adjacent g a b r →
  Forall (λ e, ¬ (e.1.1 = a ∧ e.1.2 = b ∨ e.1.1 = b ∧ e.1.2 = a)) edges →
  addEdges edges g = Ret g' → adjacent g' a b r.
Proof.
  revert g. induction edges as [|[[x y] s] edges IH]; intros g Hg Hadj Hother.
  { by intros [= <-]. }
  intros (g1 & Hadd & Hrest)%addEdges_cons_inv.
  apply Forall_cons in Hother as [Hxy Hother]. simpl in Hxy.
  eapply (IH g1); [by eapply addEdge_ascending| |done|exact Hrest].
  apply (adjacent_addEdge x y s g g1 a b r Hg Hadd). right. split; [|done].
  intros [[-> ->]|[-> ->]]; tauto.
Qed.

Lemma elem_of_getAdjacentBottles g a l r :
  getAdjacentBottles a g = Ret l → r ∈ l ↔ ∃ b, adjacent g a b r.
Proof.
  intros (Ha & row & Hrow & ->)%getAdjacentBottles_Ret. unfold adjacent.
  rewrite list_elem_of_fmap. split.
  - intros ([b r'] & -> & Hin). exists b. eauto.
  - intros (b & _ & row' & Hrow' & Hin). exists (b, r).
    split; [done|]. congruence.
Qed.

(** X11. [addEdge] touches two rows: it keeps the number of vertices, and the
    adjacent bottles of every vertex other than its two endpoints. *)
Theorem addEdge_frame a b r g g' v :
  addEdge a b r g = Ret g' → v ≠ a → v ≠ b →
  length g' = length g ∧ getAdjacentBottles v g' = getAdjacentBottles v g.
Proof.
  intros Hadd Hva Hvb. split; [by eapply addEdge_length|].
  unfold getAdjacentBottles, vec_get. case_decide; [|done].
  rewrite (addEdge_Ret_lookup _ _ _ _ _ Hadd), Z2Nat.id by done.
  rewrite !decide_False by done. simpl. by destruct (g !! Z.to_nat v).
Qed.

Lemma addEdge_frame_third_vertex :
  length [[(1, 0)]; [(0, 0)]; [(3, 2)]; [(2, 2)]] =
  length [[]; []; [(3, 2)]; [(2, 2)]] ∧
  getAdjacentBottles 2 [[(1, 0)]; [(0, 0)]; [(3, 2)]; [(2, 2)]] =
  getAdjacentBottles 2 [[]; []; [(3, 2)]; [(2, 2)]].
Proof.
  apply (addEdge_frame 0 1 0 [[]; []; [(3, 2)]; [(2, 2)]]);
    [reflexivity|lia|lia].
Defined.

(** X12. A topology built edge by edge is symmetric. With all endpoints
    among the [n] vertices the construction returns a graph of [n] vertices
    in which [b] is a neighbour of [a] through bottle [r] exactly when [a]
    is a neighbour of [b] through [r]. *)
Theorem built_graph_symmetric n edges :
  Forall (λ e, 0 ≤ e.1.1 < Z.of_nat n ∧ 0 ≤ e.1.2 < Z.of_nat n) edges →
  ∃ g, addEdges edges (Graph n) = Ret g ∧ length g = n ∧
       ∀ a b r, adjacent g a b r ↔ adjacent g b a r.
Proof.
  intros Hedges. destruct (addEdges_defined edges (Graph n)) as (g & Hg & Hlen).
  { unfold Graph. by rewrite length_replicate. }
  exists g. split; [done|]. split.
  { rewrite Hlen. apply length_replicate. }
  assert (∀ a b r, adjacent g a b r → adjacent g b a r) as Hsym.
  { eapply addEdges_symmetric; [apply Graph_ascending| |exact Hg].
    intros a b r Hadj. by apply Graph_no_entry in Hadj. }
  intros a b r. split; apply Hsym.
Qed.

Lemma built_graph_symmetric_main :
  ∃ g, addEdges [(0, 1, 0); (1, 2, 1); (2, 3, 2); (3, 4, 3); (4, 0, 4);
                 (0, 2, 5)] (Graph 5) = Ret g ∧ length g = 5%nat ∧
       ∀ a b r, adjacent g a b r ↔ adjacent g b a r.
Proof.
  apply (built_graph_symmetric 5).
  repeat (constructor; [simpl; lia|]). constructor.
Defined.

(** X13. In a topology built edge by edge every row lists its neighbours in
    ascending order, each once, so two philosophers share at most one
    bottle. *)
Theorem built_graph_one_bottle_per_pair n edges g :
  addEdges edges (Graph n) = Ret g →
  ascending g ∧
  ∀ a b r1 r2, adjacent g a b r1 → adjacent g a b r2 → r1 = r2.
Proof.
  intros Hg.
  assert (ascending g) as Hasc
    by (eapply addEdges_ascending; [apply Graph_ascending|exact Hg]).
  split; [done|].
  intros a b r1 r2 (_ & row & Hrow & H1) (_ & row' & Hrow' & H2).
  assert (row' = row) as -> by congruence.
  eapply sorted_row_functional; [|exact H1|exact H2].
  unfold ascending in Hasc. rewrite Forall_lookup in Hasc. by eapply Hasc.
Qed.

Lemma built_graph_one_bottle_per_pair_twice :
  ascending [[(1, 1)]; [(0, 1)]] ∧
  ∀ a b r1 r2, adjacent [[(1, 1)]; [(0, 1)]] a b r1 →
               adjacent [[(1, 1)]; [(0, 1)]] a b r2 → r1 = r2.
Proof.
  apply (built_graph_one_bottle_per_pair 2 [(0, 1, 0); (0, 1, 1)]).
  reflexivity.
Defined.

(** X14. The topology invents no adjacency: a bottle among the adjacent
    bottles of [a] in a built topology is the bottle of an edge of [a] in the
    list of edges. *)
Theorem built_graph_bottles_from_edges n edges g a l r :
  addEdges edges (Graph n) = Ret g →
  getAdjacentBottles a g = Ret l → r ∈ l →
  ∃ b, (a, b, r) ∈ edges ∨ (b, a, r) ∈ edges.
Proof.
  intros Hg Hl Hr. apply (elem_of_getAdjacentBottles _ _ _ _ Hl) in Hr as [b Hb].
  exists b.
  destruct (addEdges_provenance edges (Graph n) g a b r) as [Hnew|Hedge];
    [apply Graph_ascending|done|done| |done].
  by apply Graph_no_entry in Hnew.
Qed.

Lemma built_graph_bottles_from_edges_pair :
  ∃ b, (1, b, 0) ∈ [(0, 1, 0); (1, 2, 1)] ∨ (b, 1, 0) ∈ [(0, 1, 0); (1, 2, 1)].
Proof.
  apply (built_graph_bottles_from_edges 3 [(0, 1, 0); (1, 2, 1)]
           [[(1, 0)]; [(0, 0); (2, 1)]; [(1, 1)]] 1 [0; 1] 0).
  - reflexivity.
  - reflexivity.
  - apply list_elem_of_In. simpl. lia.
Defined.

(** X15. An edge lasts until its pair is assigned again: if no later edge of
    the list joins [a] and [b], the bottle [r] of the edge [a, b, r] is among
    the adjacent bottles of [a] and of [b] in the built topology. *)
Theorem built_graph_keeps_edge n before after a b r g :
  Forall (λ e, ¬ (e.1.1 = a ∧ e.1.2 = b ∨ e.1.1 = b ∧ e.1.2 = a)) after →
  addEdges (before ++ (a, b, r) :: after) (Graph n) = Ret g →
  ∃ bottles_a bottles_b,
    getAdjacentBottles a g = Ret bottles_a ∧ r ∈ bottles_a ∧
    getAdjacentBottles b g = Ret bottles_b ∧ r ∈ bottles_b.
Proof.
  intros Hafter Hg.
  assert (∃ g0, addEdges before (Graph n) = Ret g0 ∧
                addEdges ((a, b, r) :: after) g0 = Ret g) as (g0 & Hg0 & Hg1).
  { clear Hafter. revert Hg. generalize (Graph n).
    induction before as [|[[x y] s] before IH]; intros g0; simpl; [eauto|].
    destruct (addEdge x y s g0) as [g1| |]; simpl; [apply IH|done..]. }
  apply addEdges_cons_inv in Hg1 as (g1 & Hadd & Hrest).
  assert (ascending g0) as Hasc0
    by (eapply addEdges_ascending; [apply Graph_ascending|exact Hg0]).
  pose proof (addEdge_ascending _ _ _ _ _ Hasc0 Hadd) as Hasc1.
  assert (adjacent g a b r) as Hab.
  { eapply addEdges_keeps; [exact Hasc1| |exact Hafter|exact Hrest].
    apply (adjacent_addEdge a b r g0 g1 a b r Hasc0 Hadd). left. tauto. }
  assert (adjacent g b a r) as Hba.
  { eapply addEdges_keeps; [exact Hasc1| | |exact Hrest].
    - apply (adjacent_addEdge a b r g0 g1 b a r Hasc0 Hadd). left. tauto.
    - eapply Forall_impl; [exact Hafter|]. simpl. tauto. }
  assert (∀ x y, adjacent g x y r →
            ∃ l, getAdjacentBottles x g = Ret l ∧ r ∈ l) as Hget.
  { intros x y Hxy. pose proof Hxy as (Hx & row & Hrow & _).
    exists (row.*2). assert (getAdjacentBottles x g = Ret (row.*2)) as Hl.
    { apply getAdjacentBottles_Ret. eauto. }
    split; [done|]. apply (elem_of_getAdjacentBottles _ _ _ _ Hl). eauto. }
  destruct (Hget a b Hab) as (la & ? & ?). destruct (Hget b a Hba) as (lb & ? & ?).
  by exists la, lb.
Qed.

Lemma built_graph_keeps_edge_first :
  ∃ bottles_a bottles_b,
    getAdjacentBottles 0 [[(1, 0)]; [(0, 0); (2, 1)]; [(1, 1)]]
    = Ret bottles_a ∧ 0 ∈ bottles_a ∧
    getAdjacentBottles 1 [[(1, 0)]; [(0, 0); (2, 1)]; [(1, 1)]]
    = Ret bottles_b ∧ 0 ∈ bottles_b.
Proof.
  apply (built_graph_keeps_edge 3 [] [(1, 2, 1)] 0 1 0).
  - constructor; [simpl; lia|constructor].
  - reflexivity.
Defined.

End topology.

(** ** The thread of a philosopher *)

Section thread.
Import Graph Bottles Philosopher.
Implicit Types (g : Graph.t) (p : Philosopher.t) (bottles : Bottles.t)
  (adjacent : list Z).

(** What [becomeThirsty] returns, from any earlier state of the philosopher. *)
Lemma becomeThirsty_Ret g rnd shuffle p adjacent :
  0 ≤ rnd → (∀ l, shuffle l ≡ₚ l) →
  getAdjacentBottles (id p) g = Ret adjacent →
  ∃ picked,
    becomeThirsty g rnd shuffle p =
      Ret {| id := id p; state := THIRSTY; required_bottles := picked |} ∧
    Forall2 (λ bottle idx, adjacent !! Z.to_nat idx = Some bottle) picked
      (take (Nat.min (Z.to_nat (Z.rem rnd 2 + 1)) (length adjacent))
            (shuffle (seqZ 0 (Z.of_nat (length adjacent))))).
Proof.
  intros Hrnd Hperm Hadj.
  pose proof (Z.rem_bound_pos rnd 2 Hrnd ltac:(lia)) as Hrem.
  set (limit := Z.rem rnd 2 + 1) in *.
  set (shuffled := shuffle (seqZ 0 (Z.of_nat (length adjacent)))).
  assert (length shuffled = length adjacent) as Hlen.
  { unfold shuffled. rewrite (Permutation_length (Hperm _)), length_seqZ. lia. }
  destruct (select_loop_picks adjacent shuffled limit
              (Nat.min (Z.to_nat limit) (length adjacent)) 0 [])
    as (picked & Hloop & Hpicked).
  { done. }
  { lia. }
  { intros j idx _ Hj%list_elem_of_lookup_2. unfold shuffled in Hj.
    rewrite (Hperm _) in Hj. apply elem_of_seqZ in Hj. lia. }
  { lia. }
  simpl in Hloop, Hpicked. rewrite drop_0 in Hpicked.
  exists picked. split; [|done].
  unfold becomeThirsty. simpl. rewrite Hadj. simpl.
  fold limit shuffled. by rewrite Hloop.
Qed.

Lemma picked_adjacent adjacent picked (indices : list Z) :
  Forall2 (λ bottle idx, adjacent !! Z.to_nat idx = Some bottle) picked indices →
  ∀ r, r ∈ picked → r ∈ adjacent.
Proof.
  intros Hpicked r [i Hi]%list_elem_of_lookup_1.
  destruct (Forall2_lookup_l _ _ _ _ _ Hpicked Hi) as (idx & _ & Hb).
  by eapply list_elem_of_lookup_2.
Qed.

(** The outcome of [requestBottles] follows that of [acquireBottles]. *)
Lemma requestBottles_granted p bottles bottles' :
  acquireBottles (id p) (required_bottles p) bottles = Ret (true, bottles') →
  Thread.requestBottles p bottles =
  Ret (true, {| id := id p; state := DRINKING;
                required_bottles := required_bottles p |}, bottles').
Proof. intros Hacq. unfold Thread.requestBottles. by rewrite Hacq. Qed.

Lemma requestBottles_refused p bottles bottles' :
  acquireBottles (id p) (required_bottles p) bottles = Ret (false, bottles') →
  Thread.requestBottles p bottles = Ret (false, p, bottles').
Proof. intros Hacq. unfold Thread.requestBottles. by rewrite Hacq. Qed.

Lemma picked_distinct adjacent picked (indices : list Z) :
  NoDup adjacent → NoDup indices → Forall (λ idx, 0 ≤ idx) indices →
  Forall2 (λ bottle idx, adjacent !! Z.to_nat idx = Some bottle) picked indices →
  NoDup picked.
Proof.
  intros Hadj Hidx Hpos Hpicked.
  induction Hpicked as [|bottle idx picked indices Hb Hpicked IH].
  { constructor. }
  apply NoDup_cons in Hidx as [Hfresh Hidx].
  apply Forall_cons in Hpos as [Hi Hpos].
  constructor; [|by apply IH].
  intros [j Hj]%list_elem_of_lookup_1.
  destruct (Forall2_lookup_l _ _ _ _ _ Hpicked Hj) as (idx' & Hidx' & Hb').
  assert (0 ≤ idx') as Hi'.
  { rewrite Forall_forall in Hpos. apply Hpos. by eapply list_elem_of_lookup_2. }
  pose proof (NoDup_lookup _ _ _ _ Hadj Hb Hb') as Heq.
  assert (idx' = idx) as -> by lia.
  apply Hfresh. by eapply list_elem_of_lookup_2.
Qed.

(** X16. A thirsty philosopher asks only for adjacent bottles, so when the
    adjacent bottles are bottles of the pool the request returns. Refused,
    it leaves the philosopher (still thirsty, the same bottles needed) and
    the pool as they are; granted, the philosopher is drinking and owns
    every bottle it needs. *)
Theorem thirsty_request_defined g rnd shuffle p bottles adjacent :
  0 ≤ rnd → (∀ l, shuffle l ≡ₚ l) →
  getAdjacentBottles (id p) g = Ret adjacent →
  Forall (in_pool bottles) adjacent →
  ∃ p1 ok p2 bottles',
    becomeThirsty g rnd shuffle p = Ret p1 ∧
    Thread.requestBottles p1 bottles = Ret (ok, p2, bottles') ∧
    (ok = false → p2 = p1 ∧ state p2 = THIRSTY ∧ bottles' = bottles) ∧
    (ok = true →
       state p2 = DRINKING ∧ required_bottles p2 = required_bottles p1 ∧
       Forall (λ r, owned_by bottles' r (id p)) (required_bottles p1)).
Proof.
  intros Hrnd Hperm Hadj Hpool.
  destruct (becomeThirsty_Ret g rnd shuffle p adjacent Hrnd Hperm Hadj)
    as (picked & Hthirsty & Hpicked).
  assert (Forall (in_pool bottles) picked) as Hin.
  { apply Forall_forall. intros r Hr%(picked_adjacent _ _ _ Hpicked).
    rewrite Forall_forall in Hpool. by apply Hpool. }
  assert (id p ≠ FREE) as Hid.
  { apply getAdjacentBottles_Ret in Hadj as [? _]. unfold FREE. lia. }
  eexists. rewrite Hthirsty.
  destruct (acquireBottles_cases (id p) picked bottles Hin)
    as [[Hav _]|[_ Hacq]].
  - destruct (acquireBottles_success _ _ _ Hav) as (b' & Hacq & _ & Hlk).
    eexists true, _, b'. split; [done|].
    split; [by apply requestBottles_granted|]. split; [done|]. intros _.
    split_and!; [done..|]. simpl. apply Forall_forall. intros r Hr.
    unfold owned_by. rewrite (owner_marked _ _ _ _ r Hin Hlk).
    by rewrite decide_True, show_slot_agent.
  - eexists false, _, bottles. split; [done|].
    split; [by apply requestBottles_refused|]. by split.
Qed.

Lemma thirsty_request_defined_philosopher_1 :
  ∃ p1 ok p2 bottles',
    becomeThirsty [[(1, 0)]; [(0, 0); (2, 1)]; [(1, 1)]] 1 reverse
                  (Philosopher 1) = Ret p1 ∧
    Thread.requestBottles p1 [0; -1] = Ret (ok, p2, bottles') ∧
    (ok = false → p2 = p1 ∧ state p2 = THIRSTY ∧ bottles' = [0; -1]) ∧
    (ok = true →
       state p2 = DRINKING ∧ required_bottles p2 = required_bottles p1 ∧
       Forall (λ r, owned_by bottles' r (id (Philosopher 1)))
              (required_bottles p1)).
Proof.
  apply (thirsty_request_defined [[(1, 0)]; [(0, 0); (2, 1)]; [(1, 1)]]
           1 reverse (Philosopher 1) [0; -1] [0; 1]).
  - lia.
  - apply reverse_Permutation.
  - reflexivity.
  - unfold in_pool. repeat constructor; simpl; lia.
Defined.

(** X17. No bottle is asked for twice: when the adjacent bottles of the
    philosopher are distinct, so are the bottles [becomeThirsty] selects. *)
Theorem required_bottles_distinct g rnd shuffle p adjacent :
  0 ≤ rnd → (∀ l, shuffle l ≡ₚ l) →
  getAdjacentBottles (id p) g = Ret adjacent →
  NoDup adjacent →
  ∃ p1, becomeThirsty g rnd shuffle p = Ret p1 ∧
        NoDup (required_bottles p1).
Proof.
  intros Hrnd Hperm Hadj Hdistinct.
  destruct (becomeThirsty_Ret g rnd shuffle p adjacent Hrnd Hperm Hadj)
    as (picked & Hthirsty & Hpicked).
  eexists. split; [exact Hthirsty|]. simpl.
  assert (NoDup (shuffle (seqZ 0 (Z.of_nat (length adjacent))))) as Hnodup.
  { rewrite (Hperm _). apply NoDup_seqZ. }
  eapply picked_distinct; [exact Hdistinct| | |exact Hpicked].
  - eapply sublist_NoDup; [exact Hnodup|apply sublist_take].
  - apply Forall_forall. intros idx Hidx.
    assert (idx ∈ shuffle (seqZ 0 (Z.of_nat (length adjacent)))) as Hin.
    { eapply sublist_subseteq; [apply sublist_take|exact Hidx]. }
    rewrite (Hperm _) in Hin. apply elem_of_seqZ in Hin. lia.
Qed.

Lemma required_bottles_distinct_philosopher_1 :
  ∃ p1, becomeThirsty [[(1, 0)]; [(0, 0); (2, 1)]; [(1, 1)]] 1 reverse
                      (Philosopher 1) = Ret p1 ∧
        NoDup (required_bottles p1).
Proof.
  apply (required_bottles_distinct [[(1, 0)]; [(0, 0); (2, 1)]; [(1, 1)]]
           1 reverse (Philosopher 1) [0; 1]).
  - lia.
  - apply reverse_Permutation.
  - reflexivity.
  - apply (bool_decide_unpack _). vm_compute. exact I.
Defined.

(** X18. A round without contention. When the adjacent bottles of the
    philosopher are free or its own, one pass of the loop of [run] goes
    through at the first request: think, become thirsty, request (granted),
    drink, release. At the end the philosopher is tranquil and owns nothing;
    if it owned nothing at the start, the pool is again the pool of the
    start. *)
Theorem uncontended_round g rnd shuffle p bottles adjacent :
  0 ≤ rnd → (∀ l, shuffle l ≡ₚ l) →
  getAdjacentBottles (id p) g = Ret adjacent →
  Forall (λ r, is_free bottles r ∨ owned_by bottles r (id p)) adjacent →
  ∃ p1 p2 bottles2 p3 bottles3,
    becomeThirsty g rnd shuffle (Thread.think p) = Ret p1 ∧
    Thread.requestBottles p1 bottles = Ret (true, p2, bottles2) ∧
    Thread.releaseBottles (Thread.drink p2) bottles2 = Ret (p3, bottles3) ∧
    id p3 = id p ∧ state p3 = TRANQUIL ∧
    (∀ r, ¬ owned_by bottles3 r (id p)) ∧
    ((∀ r, ¬ owned_by bottles r (id p)) → bottles3 = bottles).
Proof.
  intros Hrnd Hperm Hadj Hfree.
  destruct (becomeThirsty_Ret g rnd shuffle (Thread.think p) adjacent
              Hrnd Hperm Hadj) as (picked & Hthirsty & Hpicked).
  simpl in Hthirsty.
  assert (Forall (λ r, is_free bottles r ∨ owned_by bottles r (id p)) picked)
    as Hav.
  { apply Forall_forall. intros r Hr%(picked_adjacent _ _ _ Hpicked).
    rewrite Forall_forall in Hfree. by apply Hfree. }
  destruct (acquireBottles_success _ _ _ Hav) as (b2 & Hacq & _ & _).
  eexists _, _, b2, _, _. split; [exact Hthirsty|].
  split; [by apply requestBottles_granted|].
  unfold Thread.releaseBottles, Thread.drink. simpl.
  rewrite releaseBottles_Ret. simpl. split; [done|].
  split_and!; [done..| |].
  - intros r. unfold owned_by. rewrite owner_released.
    destruct (Bottles.owner b2 r) as [s|]; [|done]. simpl.
    case_decide; [done|]. congruence.
  - intros Hnone.
    pose proof (release_undoes_acquire _ _ _ _ Hnone Hacq) as Hback.
    rewrite releaseBottles_Ret in Hback. by injection Hback.
Qed.

Lemma uncontended_round_philosopher_1 :
  ∃ p1 p2 bottles2 p3 bottles3,
    becomeThirsty [[(1, 0)]; [(0, 0); (2, 1)]; [(1, 1)]] 1 reverse
                  (Thread.think (Philosopher 1)) = Ret p1 ∧
    Thread.requestBottles p1 [-1; -1] = Ret (true, p2, bottles2) ∧
    Thread.releaseBottles (Thread.drink p2) bottles2 = Ret (p3, bottles3) ∧
    id p3 = id (Philosopher 1) ∧ state p3 = TRANQUIL ∧
    (∀ r, ¬ owned_by bottles3 r (id (Philosopher 1))) ∧
    ((∀ r, ¬ owned_by [-1; -1] r (id (Philosopher 1))) →
     bottles3 = [-1; -1]).
Proof.
  apply (uncontended_round [[(1, 0)]; [(0, 0); (2, 1)]; [(1, 1)]]
           1 reverse (Philosopher 1) [-1; -1] [0; 1]).
  - lia.
  - apply reverse_Permutation.
  - reflexivity.
  - constructor; [left; reflexivity|].
    constructor; [left; reflexivity|]. constructor.
Defined.

(** X19. A philosopher without neighbours never waits: it needs no bottle,
    whatever the random draws, and its request is granted on every pool and
    leaves the pool as it is. *)
Theorem isolated_philosopher g rnd shuffle p :
  getAdjacentBottles (id p) g = Ret [] →
  becomeThirsty g rnd shuffle p =
    Ret {| id := id p; state := THIRSTY; required_bottles := [] |} ∧
  ∀ bottles,
    Thread.requestBottles
      {| id := id p; state := THIRSTY; required_bottles := [] |} bottles =
    Ret (true, {| id := id p; state := DRINKING; required_bottles := [] |},
         bottles).
Proof.
  intros Hadj. split; [|done].
  unfold becomeThirsty. simpl. rewrite Hadj. simpl.
  rewrite select_loop_round. rewrite decide_False; [done|]. simpl. lia.
Qed.

Lemma isolated_philosopher_fourth_vertex :
  becomeThirsty [[(1, 0)]; [(0, 0)]; []] 5 reverse (Philosopher 2) =
    Ret {| id := id (Philosopher 2); state := THIRSTY;
           required_bottles := [] |} ∧
  ∀ bottles,
    Thread.requestBottles
      {| id := id (Philosopher 2); state := THIRSTY; required_bottles := [] |}
      bottles =
    Ret (true, {| id := id (Philosopher 2); state := DRINKING;
                  required_bottles := [] |},
         bottles).
Proof.
  apply (isolated_philosopher [[(1, 0)]; [(0, 0)]; []] 5 reverse
           (Philosopher 2)).
  reflexivity.
Defined.

End thread.

(** ** Runs: where ownership comes from *)

Section run_history.
Import Bottles Run.
Implicit Types (w : world) (o : op) (ops : list op) (a r : Z).

Lemma step_holding w o w' a r :
  step w o = Ret w' → (a, r) ∈ holding w' →
  (a, r) ∈ holding w ∨ ∃ S, o = requestBottles a S ∧ r ∈ S.
Proof.
  destruct o as [id S|id]; simpl.
  - destruct (acquireBottles id S (pool w)) as [[[|] b']| |]; simpl;
      [|intros [= <-]; by left|done..].
    intros [= <-]. simpl.
    rewrite elem_of_union, elem_of_list_to_set, list_elem_of_fmap.
    intros [?|(r' & [= -> ->] & ?)]; [by left|right; eauto].
  - destruct (Bottles.releaseBottles id (pool w)) as [b'| |]; simpl; [|done..].
    intros [= <-]. simpl. rewrite elem_of_filter. intros [_ ?]. by left.
Qed.

Lemma exec_holding ops w w' a r :
  exec w ops = Ret w' → (a, r) ∈ holding w' →
  (a, r) ∈ holding w ∨ ∃ S, requestBottles a S ∈ ops ∧ r ∈ S.
Proof.
  revert w. induction ops as [|o ops IH]; intros w; simpl.
  { intros [= <-]. by left. }
  destruct (step w o) as [w1| |] eqn:Hstep; simpl; [|done..].
  intros Hexec Hin. destruct (IH w1 Hexec Hin) as [Hin1|(S & ? & ?)].
  - destruct (step_holding _ _ _ _ _ Hstep Hin1) as [?|(S & -> & ?)];
      [by left|]. right. exists S. split; [by left|done].
  - right. exists S. split; [by right|done].
Qed.

Lemma exec_app ops1 ops2 w w' :
  exec w (ops1 ++ ops2) = Ret w' →
  ∃ w1, exec w ops1 = Ret w1 ∧ exec w1 ops2 = Ret w'.
Proof.
  revert w. induction ops1 as [|o ops1 IH]; intros w; simpl; [eauto|].
  destruct (step w o) as [w1| |]; simpl; [apply IH|done..].
Qed.

(** X20. The pool gives a bottle only to a philosopher that asked for it: in
    a run from the new pool, the owner of a bottle has issued a request that
    names the bottle. *)
Theorem owner_has_requested n ops w a r :
  Forall (wf_op n) ops →
  exec (start n) ops = Ret w →
  owned_by (pool w) r a →
  ∃ S, requestBottles a S ∈ ops ∧ r ∈ S.
Proof.
  intros Hops Hexec Hown.
  destruct (exec_consistent n ops (start n) Hops) as (w' & Hexec' & _ & Hcons).
  { simpl. apply length_replicate. }
  { apply start_consistent. }
  assert (w' = w) as -> by congruence.
  apply Hcons in Hown.
  destruct (exec_holding ops (start n) w a r Hexec Hown) as [Hstart|?]; [|done].
  simpl in Hstart. by apply elem_of_empty in Hstart.
Qed.

Lemma owner_has_requested_first_philosopher :
  ∃ S, requestBottles 0 S ∈ [requestBottles 0 [0; 1]; requestBottles 1 [1; 2]]
       ∧ 1 ∈ S.
Proof.
  apply (owner_has_requested 3
           [requestBottles 0 [0; 1]; requestBottles 1 [1; 2]]
           {| pool := [0; 0; -1];
              holding := ∅ ∪ list_to_set ((λ b, (0, b)) <$> [0; 1]) |} 0 1).
  - repeat (constructor;
            [cbv [wf_op FREE]; try split; [lia|repeat constructor; lia..]|]).
    constructor.
  - reflexivity.
  - reflexivity.
Defined.

(** X21. A release lasts: in a run from the new pool, a philosopher that has
    released and has issued no request since owns no bottle. *)
Theorem released_owns_nothing n before after a w :
  Forall (wf_op n) (before ++ releaseBottles a :: after) →
  Forall (λ o, ∀ S, o ≠ requestBottles a S) after →
  exec (start n) (before ++ releaseBottles a :: after) = Ret w →
  ∀ r, ¬ owned_by (pool w) r a.
Proof.
  intros Hops Hafter Hexec r Hown.
  destruct (exec_consistent n _ (start n) Hops) as (w' & Hexec' & _ & Hcons).
  { simpl. apply length_replicate. }
  { apply start_consistent. }
  assert (w' = w) as -> by congruence.
  apply Hcons in Hown.
  apply exec_app in Hexec as (w1 & _ & Hexec). simpl in Hexec.
  rewrite releaseBottles_Ret in Hexec. simpl in Hexec.
  destruct (exec_holding _ _ _ _ _ Hexec Hown) as [Hheld|(S & Hin & _)].
  - simpl in Hheld. apply elem_of_filter in Hheld as [Hne _]. done.
  - rewrite Forall_forall in Hafter. by destruct (Hafter _ Hin S).
Qed.

Lemma released_owns_nothing_scenario :
  ¬ owned_by [-1; 1; 1] 0 0 ∧ ¬ owned_by [-1; 1; 1] 1 0.
Proof.
  assert (∀ r, ¬ owned_by [-1; 1; 1] r 0) as Hnone; [|by split].
  apply (released_owns_nothing 3 [requestBottles 0 [0; 1]]
           [requestBottles 1 [1; 2]] 0
           {| pool := [-1; 1; 1];
              holding :=
                filter (λ h, h.1 ≠ 0)
                       (∅ ∪ list_to_set ((λ b, (0, b)) <$> [0; 1]))
                ∪ list_to_set ((λ b, (1, b)) <$> [1; 2]) |}).
  - repeat (constructor;
            [cbv [wf_op FREE]; try split; [lia|repeat constructor; lia..]|]).
    constructor.
  - constructor; [intros S [= ? _]; lia|constructor].
  - reflexivity.
Defined.

End run_history.

(** ** The log *)

Section log.

(** X22. The state column of the log is aligned and unambiguous: the name of
    every state fills a field of eight characters exactly, and two states
    never print the same field. *)
Theorem state_field (s1 s2 : State) :
  String.length (setw 8 (stateToString s1)) = 8%nat ∧
  (setw 8 (stateToString s1) = setw 8 (stateToString s2) → s1 = s2).
Proof. split; [by destruct s1|]. by destruct s1, s2. Qed.

End log.
